(** * playlist.py: random M3U playlists from genre folders

    A shallow embedding of [playlist.py].  Every function of the script is
    a definition of the same name below.  Conventions:

    - a [str] is a [string] of bytes; [upper] and [lower] act on the ASCII
      letters and leave every other byte alone;
    - a [Path] is its string form, already normalised the way [pathlib]
      prints it (no trailing or doubled separator);
    - a [dict] is a [gmap], a [set] a [gset]; [sorted] is a merge sort for
      the order of [str] (code points, which is the order of the bytes);
    - the file system is a table from paths to nodes in the order in which
      the operating system lists them; writing where a directory is, making
      a directory where a file is and copying what is not a file raise, as
      they do on a disk, and every other operation succeeds (the table has
      no permissions and no quota, and a new file does not need its parent
      directory);
    - the random generator is the sequence of numbers it is about to hand
      out; a sequence that ends while numbers are still needed plays the
      part of fuel, and so does the bound of the one [while] loop;
    - [print], [sys.exit] and the calls that reach the file system are
      recorded in a trace, in the order in which they happen. *)

From Stdlib Require Import Ascii String.
From stdpp Require Import gmap strings list pretty sorting.

Open Scope string_scope.
Open Scope list_scope.

(** ** Strings *)

Module Str.

Definition upper_char (c : ascii) : ascii :=
  let n := Ascii.nat_of_ascii c in
  if (97 <=? n)%nat && (n <=? 122)%nat then Ascii.ascii_of_nat (n - 32) else c.

Definition lower_char (c : ascii) : ascii :=
  let n := Ascii.nat_of_ascii c in
  if (65 <=? n)%nat && (n <=? 90)%nat then Ascii.ascii_of_nat (n + 32) else c.

Fixpoint map_chars (f : ascii → ascii) (s : string) : string :=
  match s with
  | EmptyString => EmptyString
  | String c s' => String (f c) (map_chars f s')
  end.

(** [s.upper()] and [s.lower()] *)
Definition upper : string → string := map_chars upper_char.
Definition lower : string → string := map_chars lower_char.

(** [s.rfind(c)]: the last position of [c], [None] for Python's [-1] *)
Fixpoint rfind (c : ascii) (s : string) : option nat :=
  match s with
  | EmptyString => None
  | String a s' =>
      match rfind c s' with
      | Some i => Some (S i)
      | None => if Ascii.eqb a c then Some 0%nat else None
      end
  end.

(** [s[:i]] and [s[i:]] *)
Definition take (i : nat) (s : string) : string := String.substring 0 i s.
Definition drop (i : nat) (s : string) : string :=
  String.substring i (String.length s - i) s.

(** [sep.join(l)] *)
Fixpoint join (sep : string) (l : list string) : string :=
  match l with
  | [] => ""
  | [x] => x
  | x :: l' => x +:+ sep +:+ join sep l'
  end.

End Str.

(** [sorted(xs)] for strings *)
Definition sorted (l : list string) : list string := merge_sort String.le l.

(** [str(n)] and the [{n}] of an f-string, for a [len] and for an [int] *)
Definition str_nat (n : nat) : string := pretty n.
Definition str_int (z : Z) : string := pretty z.

(** ** Paths *)

Definition path := string.

Module Path.

(** [p.is_absolute()] *)
Definition is_absolute (p : path) : bool :=
  match p with
  | String "/"%char _ => true
  | _ => false
  end.

(** [d / p]: an absolute right operand replaces the left one *)
Definition join (d p : path) : path :=
  if is_absolute p then p else d +:+ "/" +:+ p.

(** [p.name]: the final component *)
Definition name (p : path) : string :=
  match Str.rfind "/"%char p with
  | Some i => Str.drop (S i) p
  | None => p
  end.

(** [p.suffix]: from the last dot of the name on, when that dot is
    neither its first nor its last character *)
Definition suffix (p : path) : string :=
  let n := name p in
  match Str.rfind "."%char n with
  | Some i =>
      if (0 <? i)%nat && (i <? String.length n - 1)%nat then Str.drop i n else ""
  | None => ""
  end.

(** [p.stem]: the name without its suffix *)
Definition stem (p : path) : string :=
  let n := name p in
  match Str.rfind "."%char n with
  | Some i =>
      if (0 <? i)%nat && (i <? String.length n - 1)%nat then Str.take i n else n
  | None => n
  end.

End Path.

(** ** The file system *)

Inductive node :=
  | Dir
  | File (data : string).

(** Every entry of the disk, directories and files alike, in the order in
    which a traversal meets them. *)
Definition filesystem := list (path * node).

Module FS.

Fixpoint lookup (fs : filesystem) (p : path) : option node :=
  match fs with
  | [] => None
  | (q, n) :: fs' => if String.eqb q p then Some n else lookup fs' p
  end.

(** [p.exists()] *)
Definition exists_ (fs : filesystem) (p : path) : bool :=
  match lookup fs p with Some _ => true | None => false end.

(** [p.is_file()] *)
Definition is_file (fs : filesystem) (p : path) : bool :=
  match lookup fs p with Some (File _) => true | _ => false end.

Definition is_dir (fs : filesystem) (p : path) : bool :=
  match lookup fs p with Some Dir => true | _ => false end.

(** [folder.rglob("*")]: everything below [folder]; nothing when
    [folder] is not a directory *)
Definition rglob (fs : filesystem) (folder : path) : list path :=
  if is_dir fs folder
  then List.filter (String.prefix (folder +:+ "/")) (fs.*1)
  else [].

(** Creating or replacing the entry at [p] *)
Definition put (fs : filesystem) (p : path) (n : node) : filesystem :=
  if exists_ fs p
  then (λ e : path * node, if String.eqb e.1 p then (p, n) else e) <$> fs
  else fs ++ [(p, n)].

(** The proper ancestors of [p], outermost first (the root excluded) *)
Fixpoint parents_go (pre s : string) : list path :=
  match s with
  | EmptyString => []
  | String c s' =>
      (if Ascii.eqb c "/" && negb (String.eqb pre "") then [pre] else [])
        ++ parents_go (pre +:+ String c "") s'
  end.
Definition parents (p : path) : list path := parents_go "" p.

(** [p.mkdir(parents=True, exist_ok=True)]: [None] when [p] or one of
    its ancestors is there and is not a directory *)
Fixpoint mkdirs (fs : filesystem) (ps : list path) : option filesystem :=
  match ps with
  | [] => Some fs
  | p :: ps' =>
      match lookup fs p with
      | None => mkdirs (fs ++ [(p, Dir)]) ps'
      | Some Dir => mkdirs fs ps'
      | Some (File _) => None
      end
  end.
Definition mkdir_p (fs : filesystem) (p : path) : option filesystem :=
  mkdirs fs (parents p ++ [p]).

End FS.

(** ** The process: world, trace and outcomes *)

Inductive event :=
  | Stdout (line : string)      (* print(line) *)
  | Stderr (line : string)      (* print(line, file=sys.stderr) *)
  | Rglob (folder : path)       (* folder.rglob("*") *)
  | Mkdir (dir : path)          (* dir.mkdir(parents=True, exist_ok=True) *)
  | Copy2 (src dst : path)      (* shutil.copy2(src, dst) *)
  | OpenW (file : path).        (* open(file, "w") *)

Record world := World {
  w_fs : filesystem;
  w_rng : list nat;
  w_trace : list event
}.

Inductive result (A : Type) :=
  | Return (a : A) (w : world)          (* the call returns *)
  | SysExit (code : Z) (w : world)      (* sys.exit(code) *)
  | Raise (exn : string) (w : world)    (* an exception nobody catches *)
  | OutOfFuel (w : world).              (* the model ran out of numbers or of steps *)
Arguments Return {A} a w.
Arguments SysExit {A} code w.
Arguments Raise {A} exn w.
Arguments OutOfFuel {A} w.

Definition M (A : Type) : Type := world → result A.

Definition ret {A} (a : A) : M A := λ w, Return a w.

Definition bind {A B} (m : M A) (k : A → M B) : M B := λ w,
  match m w with
  | Return a w' => k a w'
  | SysExit c w' => SysExit c w'
  | Raise e w' => Raise e w'
  | OutOfFuel w' => OutOfFuel w'
  end.

Declare Scope py_scope.
Delimit Scope py_scope with py.
Notation "x <- m ;; k" := (bind m (λ x, k))
  (at level 100, m at next level, right associativity) : py_scope.
Notation "m ;;; k" := (bind m (λ _, k))
  (at level 100, right associativity) : py_scope.
Open Scope py_scope.

Definition emit (e : event) : M unit := λ w,
  Return () (World (w_fs w) (w_rng w) (w_trace w ++ [e])).

Definition print (line : string) : M unit := emit (Stdout line).
Definition eprint (line : string) : M unit := emit (Stderr line).
Definition sys_exit {A} (code : Z) : M A := λ w, SysExit code w.
Definition raise {A} (exn : string) : M A := λ w, Raise exn w.

(** [parser.error(msg)]: argparse writes its usage text and [msg] to the
    error stream and leaves with status 2 *)
Definition parser_error {A} (msg : string) : M A :=
  eprint ("error: " +:+ msg) ;;; sys_exit 2.

Definition get_fs : M filesystem := λ w, Return (w_fs w) w.
Definition set_fs (fs : filesystem) : M unit := λ w,
  Return () (World fs (w_rng w) (w_trace w)).

(** The exit status the shell sees; [None] when the model gave up *)
Definition exit_status {A} (r : result A) : option Z :=
  match r with
  | Return _ _ => Some 0%Z
  | SysExit c _ => Some c
  | Raise _ _ => Some 1%Z
  | OutOfFuel _ => None
  end.

Definition final_world {A} (r : result A) : world :=
  match r with
  | Return _ w | SysExit _ w | Raise _ w | OutOfFuel w => w
  end.

Definition stdout_of (t : list event) : list string :=
  omap (λ e, match e with Stdout s => Some s | _ => None end) t.
Definition stderr_of (t : list event) : list string :=
  omap (λ e, match e with Stderr s => Some s | _ => None end) t.

(** ** [random.sample] of the standard library

    The generator hands out the numbers of [w_rng] one by one;
    [randbelow n] reduces the next one into [range(n)]. *)

Definition randbelow (n : nat) : M nat := λ w,
  match w_rng w with
  | [] => OutOfFuel w
  | r :: g => Return (r mod n)%nat (World (w_fs w) g (w_trace w))
  end.

(** [setsize = 21; if k > 5: setsize += 4 ** _ceil(_log(k * 3, 4))] *)
Definition setsize (k : nat) : nat :=
  (21 + (if 5 <? k then 4 ^ ((Nat.log2_up (k * 3) + 1) / 2) else 0))%nat.

(** The loop over a copy of the population:
    [j = randbelow(n - i); result[i] = pool[j]; pool[j] = pool[n - i - 1]];
    [m] is [n - i]. *)
Fixpoint sample_pool {A} (k m : nat) (pool : list A) : M (list A) :=
  match k with
  | O => ret []
  | S k' =>
      j <- randbelow m ;;
      match pool !! j, pool !! (m - 1)%nat with
      | Some x, Some y =>
          result <- sample_pool k' (m - 1) (<[j := y]> pool) ;;
          ret (x :: result)
      | _, _ => raise "IndexError"
      end
  end.

(** [j = randbelow(n); while j in selected: j = randbelow(n)] *)
Fixpoint draw_unselected (n : nat) (selected : gset nat) (g : list nat)
    : option (nat * list nat) :=
  match g with
  | [] => None
  | r :: g' =>
      let j := (r mod n)%nat in
      if decide (j ∈ selected) then draw_unselected n selected g' else Some (j, g')
  end.

(** The loop that remembers the positions already taken:
    [selected.add(j); result[i] = population[j]] *)
Fixpoint sample_set {A} (k n : nat) (population : list A) (selected : gset nat)
    : M (list A) :=
  match k with
  | O => ret []
  | S k' => λ w,
      match draw_unselected n selected (w_rng w) with
      | None => OutOfFuel (World (w_fs w) [] (w_trace w))
      | Some (j, g) =>
          match population !! j with
          | Some x =>
              (result <- sample_set k' n population ({[j]} ∪ selected) ;;
               ret (x :: result)) (World (w_fs w) g (w_trace w))
          | None => Raise "IndexError" (World (w_fs w) g (w_trace w))
          end
      end
  end.

(** [random.sample(population, k)] *)
Definition random_sample {A} (population : list A) (k : nat) : M (list A) :=
  let n := length population in
  if (n <? k)%nat then raise "ValueError"
  else if (n <=? setsize k)%nat then sample_pool k n population
  else sample_set k n population ∅.

(** ** The script *)

Definition nl : string := String (Ascii.ascii_of_nat 10) "".

Definition AUDIO_EXTENSIONS : gset string :=
  {[ ".mp3"; ".flac"; ".wav"; ".aac"; ".ogg"; ".m4a"; ".wma" ]}.

(** [for x in xs: body(x)] *)
Fixpoint for_each {A} (xs : list A) (body : A → M unit) : M unit :=
  match xs with
  | [] => ret ()
  | x :: xs' => body x ;;; for_each xs' body
  end.

(** [sorted(genres.items())]: the keys of a dict are distinct, so pairs are
    ordered by their names alone *)
Definition sorted_items (genres : gmap string path) : list (string * path) :=
  merge_sort (λ a b, String.le a.1 b.1) (map_to_list genres).

Definition list_genres (genres : gmap string path) : M unit :=
  print "Configured genres:" ;;;
  for_each (sorted_items genres) (λ '(name, folder),
    fs <- get_fs ;;
    let exists_ := if FS.exists_ fs folder then "OK" else "NOT FOUND" in
    print ("  " +:+ name +:+ ": " +:+ folder +:+ " [" +:+ exists_ +:+ "]")).

Definition is_audio (f : path) : bool :=
  bool_decide (Str.lower (Path.suffix f) ∈ AUDIO_EXTENSIONS).

Definition scan_audio_files (folder : path) : M (list path) :=
  fs <- get_fs ;;
  emit (Rglob folder) ;;;
  ret (List.filter (λ f, FS.is_file fs f && is_audio f) (FS.rglob fs folder)).

(** The loop of [collect_songs] over the sorted names, [songs] being the
    list built so far *)
Fixpoint collect_loop (genres : gmap string path) (names : list string)
    (songs : list path) : M (list path) :=
  match names with
  | [] => ret songs
  | name :: names' =>
      match genres !! name with
      | None => raise "KeyError"
      | Some folder =>
          fs <- get_fs ;;
          if negb (FS.exists_ fs folder) then
            eprint ("Warning: Folder for " +:+ name +:+ " does not exist: " +:+ folder) ;;;
            collect_loop genres names' songs
          else
            found <- scan_audio_files folder ;;
            print ("  " +:+ name +:+ ": " +:+ str_nat (length found) +:+ " files found") ;;;
            collect_loop genres names' (songs ++ found)
      end
  end.

Definition collect_songs (genres : gmap string path) (requested : option (list string))
    : M (list path) :=
  selected <-
    match requested with
    | Some ((_ :: _) as req) =>
        let selected : gset string := list_to_set (Str.upper <$> req) in
        let unknown := selected ∖ dom genres in
        if decide (unknown = ∅) then ret selected
        else
          eprint ("Error: Unknown genre(s): " +:+ Str.join ", " (sorted (elements unknown))) ;;;
          eprint ("Available: " +:+ Str.join ", " (sorted (elements (dom genres)))) ;;;
          sys_exit 1
    | _ => ret (dom genres)
    end ;;
  collect_loop genres (sorted (elements selected)) [].

(** What the [f.write] calls of [write_m3u] leave in the file *)
Definition m3u_text (entries : list string) : string :=
  foldl (λ text entry, text +:+ entry +:+ nl) ("#EXTM3U" +:+ nl) entries.

Definition write_m3u (filepath : path) (entries : list string) : M unit :=
  fs <- get_fs ;;
  emit (OpenW filepath) ;;;
  if FS.is_dir fs filepath then raise "IsADirectoryError"
  else set_fs (FS.put fs filepath (File (m3u_text entries))).

(** The [while] loop of [unique_filename].  A directory cannot hold more
    names than the disk has entries, which bounds the number of rounds. *)
Fixpoint unique_filename_loop (fuel : nat) (fs : filesystem) (target_dir : path)
    (stem suffix candidate : string) (counter : nat) : option string :=
  match fuel with
  | O => None
  | S fuel' =>
      if FS.exists_ fs (Path.join target_dir candidate)
      then unique_filename_loop fuel' fs target_dir stem suffix
             (stem +:+ "_" +:+ str_nat counter +:+ suffix) (S counter)
      else Some candidate
  end.

Definition unique_name (fs : filesystem) (target_dir : path) (name : string)
    : option string :=
  unique_filename_loop (2 + length fs) fs target_dir
    (Path.stem name) (Path.suffix name) name 2.

Definition unique_filename (target_dir : path) (name : string) : M string :=
  fs <- get_fs ;;
  match unique_name fs target_dir name with
  | Some candidate => ret candidate
  | None => λ w, OutOfFuel w
  end.

(** [shutil.copy2(src, dst)], for a [dst] that is not there yet *)
Definition copy2 (src dst : path) : M unit :=
  fs <- get_fs ;;
  emit (Copy2 src dst) ;;;
  match FS.lookup fs src with
  | Some (File data) => set_fs (FS.put fs dst (File data))
  | Some Dir => raise "IsADirectoryError"
  | None => raise "FileNotFoundError"
  end.

(** [f"  [{i}/{len(songs)}] Copying {song.name} -> {dest_name}"] *)
Definition copy_progress (i total : nat) (song : path) (dest_name : string) : string :=
  "  [" +:+ str_nat i +:+ "/" +:+ str_nat total +:+ "] Copying "
    +:+ Path.name song +:+ " -> " +:+ dest_name.

(** The loop of [copy_to_directory]: [i] counts from 1, [total] is
    [len(songs)] of the whole list *)
Fixpoint copy_loop (target_dir : path) (total i : nat) (songs : list path)
    (copied_names : list string) : M (list string) :=
  match songs with
  | [] => ret copied_names
  | song :: songs' =>
      dest_name <- unique_filename target_dir (Path.name song) ;;
      let dest := Path.join target_dir dest_name in
      print (copy_progress i total song dest_name) ;;;
      copy2 song dest ;;;
      copy_loop target_dir total (S i) songs' (copied_names ++ [dest_name])
  end.

Definition mkdir (target_dir : path) : M unit :=
  fs <- get_fs ;;
  emit (Mkdir target_dir) ;;;
  match FS.mkdir_p fs target_dir with
  | Some fs' => set_fs fs'
  | None => raise "FileExistsError"
  end.

Definition copy_to_directory (songs : list path) (target_dir : path)
    (output_name : string) : M unit :=
  mkdir target_dir ;;;
  copied_names <- copy_loop target_dir (length songs) 1 songs [] ;;
  let m3u_path := Path.join target_dir output_name in
  write_m3u m3u_path copied_names ;;;
  print (nl +:+ "Portable playlist written to " +:+ m3u_path) ;;;
  print ("  " +:+ str_nat (length copied_names) +:+ " files copied to " +:+ target_dir).

(** [f"Note: Only {count} files available (requested {args.count})."] *)
Definition clamp_note (count requested : Z) : string :=
  "Note: Only " +:+ str_int count +:+ " files available (requested "
    +:+ str_int requested +:+ ").".

(** The parsed command line: [--genres], [--count], [--output] (default
    ["playlist.m3u"]), [--copy-to] and [--list] *)
Record arguments := Arguments_ {
  args_genres : option (list string);
  args_count : option Z;
  args_output : string;
  args_copy_to : option string;
  args_list : bool
}.

Section script.

(** The directory of the script, and two library calls the script relies
    on: [dotenv_values(p)], the pairs of the file at [p] in file order
    (a key without a value has [None]), and [p.resolve()]. *)
Variable SCRIPT_DIR : path.
Variable dotenv_values : filesystem → path → list (string * option string).
Variable resolve : filesystem → path → path.

(** The body of the loop of [load_genres] *)
Definition add_genre (fs : filesystem) (genres : gmap string path)
    (item : string * option string) : gmap string path :=
  match item.2 with
  | Some value =>
      if String.eqb value "" then genres
      else
        let p := if Path.is_absolute value then value
                 else resolve fs (Path.join SCRIPT_DIR value) in
        <[Str.upper item.1 := p]> genres
  | None => genres
  end.

Definition load_genres : M (gmap string path) :=
  let env_path := Path.join SCRIPT_DIR ".env" in
  fs <- get_fs ;;
  if negb (FS.exists_ fs env_path) then
    eprint ("Error: No .env file found at " +:+ env_path) ;;;
    eprint "Create one with genre=folder mappings. See .env.example." ;;;
    sys_exit 1
  else
    let values := dotenv_values fs env_path in
    let genres := foldl (add_genre fs) ∅ values in
    if decide (genres = ∅) then
      eprint "Error: No genre mappings found in .env file." ;;;
      sys_exit 1
    else ret genres.

(** Lines 163 to 168 of [main]: clamp the count, say so, and sample *)
Definition select_songs (songs : list path) (requested : Z) : M (list path) :=
  let count := Z.min requested (Z.of_nat (length songs)) in
  (if (count <? requested)%Z
   then print (clamp_note count requested)
   else ret ()) ;;;
  selected <- random_sample songs (Z.to_nat count) ;;
  print (nl +:+ "Selected " +:+ str_int count +:+ " songs.") ;;;
  ret selected.

(** Lines 170 to 178 of [main]: the portable copy or the plain playlist *)
Definition emit_playlist (args : arguments) (selected : list path) : M unit :=
  match args_copy_to args with
  | Some ((String _ _) as target_dir) =>
      print (nl +:+ "Copying files to " +:+ target_dir +:+ "...") ;;;
      copy_to_directory selected target_dir (args_output args)
  | _ =>
      let output_path := args_output args in
      write_m3u output_path selected ;;;
      print ("Playlist written to " +:+ output_path)
  end.

Definition main (args : arguments) : M unit :=
  genres <- load_genres ;;
  if args_list args then list_genres genres
  else
    match args_count args with
    | None => parser_error "--count / -n is required when not using --list"
    | Some count =>
        if (count <? 1)%Z then parser_error "--count must be at least 1"
        else
          print "Scanning folders..." ;;;
          songs <- collect_songs genres (args_genres args) ;;
          match songs with
          | [] =>
              eprint "Error: No audio files found in the selected genre folders." ;;;
              sys_exit 1
          | _ :: _ =>
              selected <- select_songs songs count ;;
              emit_playlist args selected
          end
    end.

End script.

(** ** Worlds used as examples *)

Module Ex.

(** A stick that already holds [song.mp3], and two folders that each
    have a [song.mp3] of their own *)
Definition usb : filesystem :=
  [ ("/usb", Dir); ("/usb/song.mp3", File "old");
    ("/music", Dir); ("/music/rock", Dir); ("/music/rock/song.mp3", File "rock");
    ("/music/jazz", Dir); ("/music/jazz/song.mp3", File "jazz") ].

(** A library whose registry names a folder that is not on the disk *)
Definition library : filesystem :=
  [ ("/app", Dir);
    ("/app/.env",
     File ("rock=/music/old" +:+ nl +:+ "jazz=music/jazz" +:+ nl +:+ "POP=" +:+ nl
           +:+ "Rock=/music/rock" +:+ nl +:+ "BLUES" +:+ nl));
    ("/music", Dir); ("/music/rock", Dir);
    ("/music/rock/one.mp3", File "1"); ("/music/rock/two.MP3", File "2");
    ("/music/rock/cover.jpg", File "jpg"); ("/music/rock/live", Dir);
    ("/music/rock/live/three.mp3", File "3") ].

Definition registry : gmap string path :=
  <["ROCK" := "/music/rock"]> (<["JAZZ" := "/music/jazz"]> ∅).

(** The script lives in [/app]; its configuration, as [dotenv_values]
    reads it: [rock] comes twice, in two spellings, and two keys have no
    usable value. *)
Definition script_dir : path := "/app".
Definition dotenv (fs : filesystem) (p : path) : list (string * option string) :=
  match FS.lookup fs p with
  | Some (File _) =>
      [ ("rock", Some "/music/old"); ("jazz", Some "music/jazz"); ("POP", Some "");
        ("Rock", Some "/music/rock"); ("BLUES", None) ]
  | _ => []
  end.
Definition resolve (fs : filesystem) (p : path) : path :=
  if Path.is_absolute p then p else "/cwd/" +:+ p.

End Ex.

(** ** Reference definitions, in the words of the specification *)

(** The text in the words of the specification: the header line, then
    every entry followed by a line terminator. *)
Fixpoint m3u_lines (entries : list string) : string :=
  match entries with
  | [] => ""
  | entry :: entries' => entry +:+ nl +:+ m3u_lines entries'
  end.

(** [f"{stem}_{counter}{suffix}"] *)
Definition numbered (stem suffix : string) (k : nat) : string :=
  stem +:+ "_" +:+ str_nat k +:+ suffix.

(** The collision policy: [n] is [name] itself when [name] is not taken;
    otherwise it is [name] with the least number from 2 on, put before the
    extension, that makes a name which is not taken. *)
Definition first_free (taken : string → Prop) (name n : string) : Prop :=
  (¬ taken name ∧ n = name)
  ∨ (taken name ∧ ∃ k : nat,
       (2 ≤ k)%nat
       ∧ n = numbered (Path.stem name) (Path.suffix name) k
       ∧ ¬ taken n
       ∧ ∀ i : nat, (2 ≤ i < k)%nat →
           taken (numbered (Path.stem name) (Path.suffix name) i)).

Definition with_rng (w : world) (g : list nat) : world :=
  World (w_fs w) g (w_trace w).

(** The outcome of a run whose values are all put through [f] *)
Definition result_map {A B} (f : A → B) (r : result A) : result B :=
  match r with
  | Return a w => Return (f a) w
  | SysExit c w => SysExit c w
  | Raise e w => Raise e w
  | OutOfFuel w => OutOfFuel w
  end.

(** The entries of [result] are those of the population at [positions],
    in the same order. *)
Definition drawn_at {A} (population : list A) (positions : list nat) (result : list A) : Prop :=
  Forall2 (λ i x, population !! i = Some x) positions result.

(** The genres a call of [collect_songs] works on: the requested names in
    upper case, or every registered genre when none is requested *)
Definition selected_genres (genres : gmap string path) (requested : option (list string))
    : gset string :=
  match requested with
  | Some ((_ :: _) as req) => list_to_set (Str.upper <$> req)
  | _ => dom genres
  end.

(** What one genre adds to the collection: the audio files found below its
    folder, in scan order; nothing when the folder is not on the disk *)
Definition genre_songs (fs : filesystem) (genres : gmap string path) (name : string)
    : list path :=
  match genres !! name with
  | Some folder =>
      if FS.exists_ fs folder
      then List.filter (λ f, FS.is_file fs f && is_audio f) (FS.rglob fs folder)
      else []
  | None => []
  end.

(** What one genre leaves in the trace: the scan and the count, or the
    warning about the missing folder *)
Definition genre_events (fs : filesystem) (genres : gmap string path) (name : string)
    : list event :=
  match genres !! name with
  | Some folder =>
      if FS.exists_ fs folder
      then [ Rglob folder;
             Stdout ("  " +:+ name +:+ ": "
                     +:+ str_nat (length (genre_songs fs genres name)) +:+ " files found") ]
      else [ Stderr ("Warning: Folder for " +:+ name +:+ " does not exist: " +:+ folder) ]
  | None => []
  end.

(** The folder a non-empty value of the configuration stands for: itself
    when it is absolute, else the path resolved from the directory of the
    script *)
Definition folder_of (SCRIPT_DIR : path) (resolve : filesystem → path → path)
    (fs : filesystem) (value : string) : path :=
  if Path.is_absolute value then value else resolve fs (Path.join SCRIPT_DIR value).

(** A pair of the configuration that yields a mapping: it has a value and
    the value is not empty *)
Definition usable (item : string * option string) : Prop :=
  ∃ value, item.2 = Some value ∧ value ≠ "".

(** The place of the output can be written: no file stands where the
    target directory or one of its ancestors has to be, and no directory
    where the playlist goes. *)
Definition can_emit (args : arguments) (fs : filesystem) : bool :=
  match args_copy_to args with
  | Some ((String _ _) as target_dir) =>
      match FS.mkdir_p fs target_dir with
      | Some fs' => negb (FS.is_dir fs' (Path.join target_dir (args_output args)))
      | None => false
      end
  | _ => negb (FS.is_dir fs (args_output args))
  end.

(** [sys.exit] was not called and the model did not give up: the call
    returned or an exception of the file system went through. *)
Definition no_exit {A} (r : result A) : Prop :=
  match r with
  | Return _ _ | Raise _ _ => True
  | SysExit _ _ | OutOfFuel _ => False
  end.

(** [f"  {name}: {path} [{exists}]"], the line of [list_genres] for one
    genre *)
Definition genre_line (fs : filesystem) (item : string * path) : string :=
  "  " +:+ item.1 +:+ ": " +:+ item.2 +:+ " ["
    +:+ (if FS.exists_ fs item.2 then "OK" else "NOT FOUND") +:+ "]".

(** The audio files that the scan of a folder returns *)
Definition scanned (fs : filesystem) (folder : path) : list path :=
  List.filter (λ f, FS.is_file fs f && is_audio f) (FS.rglob fs folder).

(** The character that ends a line, and the strings without it *)
Definition nl_char : ascii := Ascii.ascii_of_nat 10.
Definition one_line (s : string) : Prop := Str.rfind nl_char s = None.

(** * Properties *)

(** ** The file system table *)

Section fs_facts.

Implicit Types (fs : filesystem) (p q : path) (n : node).

Lemma lookup_app fs fs' p :
  FS.lookup (fs ++ fs') p =
    match FS.lookup fs p with Some n => Some n | None => FS.lookup fs' p end.
Proof.
  induction fs as [|[q n] fs IH]; simpl; [done|].
  by destruct (String.eqb q p).
Qed.

Lemma lookup_put_eq fs p n : FS.lookup (FS.put fs p n) p = Some n.
Proof.
  unfold FS.put, FS.exists_.
  destruct (FS.lookup fs p) as [m|] eqn:E.
  - induction fs as [|[q m'] fs IH]; simpl in *; [done|].
    destruct (String.eqb_spec q p) as [->|Hne]; simpl.
    + by rewrite String.eqb_refl.
    + apply String.eqb_neq in Hne. rewrite Hne. auto.
  - rewrite lookup_app, E. simpl. by rewrite String.eqb_refl.
Qed.

Lemma lookup_put_ne fs p q n :
  q ≠ p → FS.lookup (FS.put fs p n) q = FS.lookup fs q.
Proof.
  intros Hne. unfold FS.put.
  destruct (FS.exists_ fs p).
  - induction fs as [|[r m] fs IH]; [done|].
    rewrite fmap_cons. cbn [fst]. destruct (String.eqb_spec r p) as [->|Hrp].
    + cbn [FS.lookup].
      assert (String.eqb p q = false) as -> by (apply String.eqb_neq; congruence).
      apply IH.
    + cbn [FS.lookup]. by rewrite IH.
  - rewrite lookup_app. destruct (FS.lookup fs q); [done|]. simpl.
    assert (String.eqb p q = false) as -> by (apply String.eqb_neq; congruence).
    done.
Qed.

Lemma exists_elem_of fs p : FS.exists_ fs p = true ↔ p ∈ fs.*1.
Proof.
  unfold FS.exists_. induction fs as [|[q n] fs IH]; simpl.
  - split; [done|]. intros H. by apply elem_of_nil in H.
  - destruct (String.eqb_spec q p) as [->|Hne].
    + split; [intros _; apply list_elem_of_here|done].
    + rewrite IH. split; [apply list_elem_of_further|].
      intros H. apply elem_of_cons in H as [?|?]; [congruence|done].
Qed.

Lemma exists_put_new fs p n :
  FS.exists_ fs p = false → FS.put fs p n = fs ++ [(p, n)].
Proof. unfold FS.put. by intros ->. Qed.

Lemma exists_app fs fs' p :
  FS.exists_ (fs ++ fs') p = FS.exists_ fs p || FS.exists_ fs' p.
Proof.
  unfold FS.exists_. rewrite lookup_app.
  by destruct (FS.lookup fs p), (FS.lookup fs' p).
Qed.

Lemma is_dir_app_file fs q data p :
  FS.is_dir (fs ++ [(q, File data)]) p = FS.is_dir fs p.
Proof.
  unfold FS.is_dir. rewrite lookup_app. destruct (FS.lookup fs p); [done|].
  simpl. by destruct (String.eqb q p).
Qed.

Lemma is_file_app fs fs' p :
  FS.is_file fs p = true → FS.is_file (fs ++ fs') p = true.
Proof.
  unfold FS.is_file. rewrite lookup_app. by destruct (FS.lookup fs p).
Qed.

End fs_facts.

(** ** The playlist writer *)

Lemma string_app_cons (x : ascii) (a b : string) :
  String x a +:+ b = String x (a +:+ b).
Proof. reflexivity. Qed.

Lemma string_app_nil_r (a : string) : a +:+ "" = a.
Proof. induction a as [|x a IH]; [done|]. by rewrite string_app_cons, IH. Qed.

Lemma string_app_assoc (a b c : string) : (a +:+ b) +:+ c = a +:+ (b +:+ c).
Proof. induction a as [|x a IH]; [done|]. by rewrite !string_app_cons, IH. Qed.

Lemma string_app_length (a b : string) :
  String.length (a +:+ b) = (String.length a + String.length b)%nat.
Proof. induction a as [|x a IH]; [done|]. rewrite string_app_cons. simpl. by rewrite IH. Qed.

Lemma m3u_text_lines entries :
  m3u_text entries = "#EXTM3U" +:+ nl +:+ m3u_lines entries.
Proof.
  unfold m3u_text. rewrite <- string_app_assoc. generalize ("#EXTM3U" +:+ nl) as header.
  induction entries as [|e entries IH]; intros header; simpl.
  - by rewrite string_app_nil_r.
  - rewrite IH. by rewrite !string_app_assoc.
Qed.



(** ** The collision resolver *)

Lemma string_app_inv_r (a b c : string) : a +:+ c = b +:+ c → a = b.
Proof.
  revert b. induction a as [|x a IH]; intros [|y b] H.
  - done.
  - apply (f_equal String.length) in H.
    rewrite !string_app_length in H. simpl in H. lia.
  - apply (f_equal String.length) in H.
    rewrite !string_app_length in H. simpl in H. lia.
  - rewrite !string_app_cons in H. injection H as -> H. f_equal. by apply IH.
Qed.

Lemma numbered_inj stem suffix k k' :
  numbered stem suffix k = numbered stem suffix k' → k = k'.
Proof.
  unfold numbered, str_nat. intros H.
  apply String.app_inj in H. apply String.app_inj in H.
  apply string_app_inv_r in H. by apply pretty_nat_inj in H.
Qed.

Lemma numbered_is_absolute stem suffix k k' :
  Path.is_absolute (numbered stem suffix k) = Path.is_absolute (numbered stem suffix k').
Proof. unfold numbered. by destruct stem. Qed.

Lemma join_numbered_inj d stem suffix k k' :
  Path.join d (numbered stem suffix k) = Path.join d (numbered stem suffix k') → k = k'.
Proof.
  unfold Path.join. rewrite (numbered_is_absolute stem suffix k k').
  destruct (Path.is_absolute _); intros H.
  - by apply numbered_inj in H.
  - apply String.app_inj in H. apply String.app_inj in H. by apply numbered_inj in H.
Qed.

Section unique_filename_facts.

Variables (fs : filesystem) (d : path) (stem suffix : string).

Local Abbreviation taken := (λ x : string, FS.exists_ fs (Path.join d x)).
Local Abbreviation loop := (λ fuel : nat, unique_filename_loop fuel fs d stem suffix).

Lemma loop_Some fuel x c r :
  loop fuel x c = Some r →
  (taken x = false ∧ r = x)
  ∨ (taken x = true ∧ ∃ k : nat,
       (c ≤ k)%nat ∧ r = numbered stem suffix k ∧ taken r = false
       ∧ ∀ i : nat, (c ≤ i < k)%nat → taken (numbered stem suffix i) = true).
Proof.
  revert x c. induction fuel as [|fuel IH]; intros x c; simpl; [done|].
  destruct (FS.exists_ fs (Path.join d x)) eqn:Ex.
  - intros H. right. split; [done|].
    destruct (IH _ _ H) as [[Hfree ->]|[Htaken (k & Hk & -> & Hfree & Hbelow)]].
    + exists c. split_and!; [lia|done|done|]. intros i Hi. lia.
    + exists k. split_and!; [lia|done|done|].
      intros i Hi. destruct (decide (i = c)) as [->|]; [done|]. apply Hbelow. lia.
  - intros [= <-]. by left.
Qed.

Lemma loop_None fuel x c :
  loop fuel x c = None →
  ∀ i : nat, (S i < fuel)%nat → taken (numbered stem suffix (c + i)) = true.
Proof.
  revert x c. induction fuel as [|fuel IH]; intros x c; simpl.
  - intros _ i Hi. lia.
  - destruct (FS.exists_ fs (Path.join d x)); [|done].
    intros H [|i] Hi.
    + rewrite Nat.add_0_r. destruct fuel as [|fuel]; [lia|]. simpl in H.
      unfold numbered.
      by destruct (FS.exists_ fs (Path.join d (stem +:+ "_" +:+ str_nat c +:+ suffix))).
    + replace (c + S i)%nat with (S c + i)%nat by lia. apply (IH _ _ H). lia.
Qed.

Lemma loop_more_fuel fuel fuel' x c r :
  loop fuel x c = Some r → (fuel ≤ fuel')%nat → loop fuel' x c = Some r.
Proof.
  revert fuel' x c. induction fuel as [|fuel IH]; intros fuel' x c; simpl; [done|].
  intros H Hle. destruct fuel' as [|fuel']; [lia|]. simpl.
  destruct (FS.exists_ fs (Path.join d x)); [|done]. apply IH; [done|lia].
Qed.

(** Enough rounds: the numbered names are all different, and the disk
    has room for only [length fs] of them. *)
Lemma loop_enough_fuel x c : is_Some (loop (2 + length fs) x c).
Proof.
  destruct (loop (2 + length fs) x c) as [r|] eqn:E; [by eexists|]. exfalso.
  pose proof (loop_None _ _ _ E) as Hall.
  set (cands := (λ i : nat, Path.join d (numbered stem suffix (c + i))) <$> seq 0 (S (length fs))).
  assert (NoDup cands) as Hnodup.
  { apply NoDup_fmap_2_strong; [|apply NoDup_seq].
    intros i j _ _ Hij. apply join_numbered_inj in Hij. lia. }
  assert (cands ⊆ fs.*1) as Hsub.
  { intros p Hp. apply list_elem_of_fmap in Hp as (i & -> & Hi).
    apply elem_of_seq in Hi. apply exists_elem_of. apply Hall. lia. }
  pose proof (submseteq_length _ _ (NoDup_submseteq _ _ Hnodup Hsub)) as Hlen.
  subst cands. rewrite !length_fmap, length_seq in Hlen. lia.
Qed.

End unique_filename_facts.

Lemma unique_filename_returns (target_dir : path) (name : string) (w : world) :
  ∃ r : string,
    unique_filename target_dir name w = Return r w
    ∧ (∀ fuel : nat, (2 + length (w_fs w) ≤ fuel)%nat →
         unique_filename_loop fuel (w_fs w) target_dir
           (Path.stem name) (Path.suffix name) name 2 = Some r)
    ∧ FS.exists_ (w_fs w) (Path.join target_dir r) = false
    ∧ (FS.exists_ (w_fs w) (Path.join target_dir name) = false → r = name).
Proof.
  destruct (loop_enough_fuel (w_fs w) target_dir (Path.stem name) (Path.suffix name) name 2)
    as [r Hr].
  exists r. split; [|split; [|split]].
  - unfold unique_filename, bind, get_fs, unique_name. simpl in *. by rewrite Hr.
  - intros fuel Hfuel. by apply (loop_more_fuel _ _ _ _ _ _ _ _ _ Hr).
  - apply loop_Some in Hr as [[? ->]|[_ (k & _ & _ & ? & _)]]; done.
  - intros Hfree. apply loop_Some in Hr as [[_ ->]|[Htaken _]]; [done|congruence].
Qed.


(** ** Names without a directory part *)

Lemma substring_all (s : string) : String.substring 0 (String.length s) s = s.
Proof. induction s as [|a s IH]; [done|]. simpl. by rewrite IH. Qed.

Lemma rfind_None_head c a s : Str.rfind c (String a s) = None → a ≠ c.
Proof.
  simpl. destruct (Str.rfind c s); [done|].
  destruct (Ascii.eqb_spec a c); [done|]. by intros _.
Qed.

Lemma rfind_drop c s i : Str.rfind c s = Some i → Str.rfind c (Str.drop (S i) s) = None.
Proof.
  revert i. induction s as [|a s IH]; intros i; simpl; [done|].
  destruct (Str.rfind c s) as [j|] eqn:E.
  - intros [= <-]. apply (IH j eq_refl).
  - destruct (Ascii.eqb a c); [|done]. intros [= <-].
    unfold Str.drop. simpl. by rewrite Nat.sub_0_r, substring_all.
Qed.

Lemma name_no_sep p : Str.rfind "/" (Path.name p) = None.
Proof.
  unfold Path.name. destruct (Str.rfind "/" p) as [i|] eqn:E; [|done].
  by apply rfind_drop.
Qed.

Lemma rfind_None_relative s : Str.rfind "/" s = None → Path.is_absolute s = false.
Proof.
  destruct s as [|a s]; [done|]. intros H%rfind_None_head.
  unfold Path.is_absolute.
  destruct a as [[] [] [] [] [] [] [] []]; done.
Qed.

Lemma name_relative p : Path.is_absolute (Path.name p) = false.
Proof. apply rfind_None_relative, name_no_sep. Qed.

Lemma numbered_relative p k :
  Path.is_absolute (numbered (Path.stem (Path.name p)) (Path.suffix (Path.name p)) k) = false.
Proof.
  unfold numbered, Path.stem.
  assert (Path.name (Path.name p) = Path.name p) as ->.
  { unfold Path.name at 1. by rewrite name_no_sep. }
  pose proof (name_relative p) as Hrel.
  destruct (Str.rfind "." (Path.name p)) as [i|]; cycle 1.
  { by destruct (Path.name p). }
  destruct ((0 <? i)%nat && _) eqn:Hi; cycle 1.
  { by destruct (Path.name p). }
  apply andb_true_iff in Hi as [Hi _]. apply Nat.ltb_lt in Hi.
  destruct i as [|i]; [lia|]. by destruct (Path.name p).
Qed.

Lemma join_relative_inj d x y :
  Path.is_absolute x = false → Path.is_absolute y = false →
  Path.join d x = Path.join d y → x = y.
Proof.
  unfold Path.join. intros -> -> H.
  apply String.app_inj in H. by apply String.app_inj in H.
Qed.

(** ** The copy loop *)

Lemma first_free_relative taken p n :
  first_free taken (Path.name p) n → Path.is_absolute n = false.
Proof.
  intros [[_ ->]|[_ (k & _ & -> & _)]]; [apply name_relative|apply numbered_relative].
Qed.

Lemma first_free_iff (P Q : string → Prop) p n :
  (∀ x, Path.is_absolute x = false → (P x ↔ Q x)) →
  first_free P (Path.name p) n → first_free Q (Path.name p) n.
Proof.
  intros HPQ Hn. pose proof (first_free_relative _ _ _ Hn) as Hrel.
  destruct Hn as [[Hfree ->]|[Htaken (k & Hk & -> & Hfree & Hbelow)]].
  - left. split; [|done]. by rewrite <- HPQ.
  - right. split; [by apply HPQ; [apply name_relative|]|].
    exists k. split_and!; [done|done|by rewrite <- HPQ|].
    intros i Hi. apply HPQ; [apply numbered_relative|]. by apply Hbelow.
Qed.

Lemma unique_name_first_free fs d name r :
  unique_name fs d name = Some r →
  first_free (λ x, FS.exists_ fs (Path.join d x) = true) name r.
Proof.
  unfold unique_name. intros H. apply loop_Some in H.
  destruct H as [[Hfree ->]|[Htaken (k & Hk & -> & Hfree & Hbelow)]].
  - left. split; [|done]. by rewrite Hfree.
  - right. split; [done|]. exists k. split_and!; [done|done|by rewrite Hfree|done].
Qed.

Lemma copy2_new src dst data w :
  FS.lookup (w_fs w) src = Some (File data) →
  FS.exists_ (w_fs w) dst = false →
  copy2 src dst w =
    Return () (World (w_fs w ++ [(dst, File data)]) (w_rng w) (w_trace w ++ [Copy2 src dst])).
Proof.
  intros Hsrc Hdst. unfold copy2, bind, get_fs, emit, set_fs. simpl.
  rewrite Hsrc. simpl. by rewrite exists_put_new.
Qed.

Lemma is_file_lookup fs p : FS.is_file fs p = true → ∃ data, FS.lookup fs p = Some (File data).
Proof. unfold FS.is_file. destruct (FS.lookup fs p) as [[|data]|]; [done|by eexists|done]. Qed.

Lemma exists_singleton q n p : FS.exists_ [(q, n)] p = true ↔ q = p.
Proof.
  unfold FS.exists_. simpl. destruct (String.eqb_spec q p); split; done.
Qed.

Lemma copy_loop_spec (d : path) (total : nat) (songs : list path) :
  ∀ (i : nat) (acc : list string) (w : world),
    Forall (λ s, FS.is_file (w_fs w) s = true) songs →
    ∃ names w',
      copy_loop d total i songs acc w = Return (acc ++ names) w'
      ∧ length names = length songs
      ∧ w_rng w' = w_rng w
      ∧ (∀ p, FS.is_dir (w_fs w') p = FS.is_dir (w_fs w) p)
      ∧ (∃ t, w_trace w' = w_trace w ++ t)
      ∧ ∀ (j : nat) (s : path) (n : string),
          songs !! j = Some s → names !! j = Some n →
          first_free (λ x, FS.exists_ (w_fs w) (Path.join d x) = true ∨ x ∈ take j names)
            (Path.name s) n.
Proof.
  induction songs as [|song songs IH]; intros i acc w Hfiles.
  { exists [], w. simpl. rewrite app_nil_r.
    split_and!; [done|done|done|done|by exists []; rewrite app_nil_r|]. by intros. }
  apply Forall_cons in Hfiles as [Hsong Hfiles].
  destruct (unique_filename_returns d (Path.name song) w) as (r & Hrun & Hloop & Hfresh & _).
  assert (first_free (λ x, FS.exists_ (w_fs w) (Path.join d x) = true) (Path.name song) r)
    as Hr.
  { apply unique_name_first_free. apply Hloop. lia. }
  destruct (is_file_lookup _ _ Hsong) as [data Hdata].
  set (w1 := World (w_fs w ++ [(Path.join d r, File data)]) (w_rng w)
               ((w_trace w ++ [Stdout (copy_progress i total song r)])
                  ++ [Copy2 song (Path.join d r)])).
  destruct (IH (S i) (acc ++ [r]) w1)
    as (names & w' & Hrest & Hlen & Hrng & Hdirs & [t Htrace] & Hnames).
  { eapply Forall_impl; [exact Hfiles|]. intros s Hs. by apply is_file_app. }
  exists (r :: names), w'. split_and!.
  - cbn [copy_loop]. unfold bind at 1. rewrite Hrun.
    unfold bind at 1, print, emit. cbn [w_fs w_rng w_trace].
    unfold bind at 1. rewrite (copy2_new _ _ data); [|done|done].
    cbn [w_fs w_rng w_trace]. fold w1. rewrite Hrest. by rewrite <- app_assoc.
  - simpl. by rewrite Hlen.
  - done.
  - intros p. rewrite Hdirs. apply is_dir_app_file.
  - eexists. rewrite Htrace. cbn [w_trace w1]. by rewrite <- !app_assoc.
  - intros [|j] s n Hs Hn; simpl in Hs, Hn.
    + injection Hs as <-. injection Hn as <-. simpl.
      eapply first_free_iff; [|exact Hr]. intros x _. simpl. split; [by left|].
      intros [?|Hx]; [done|]. by apply elem_of_nil in Hx.
    + eapply first_free_iff; [|exact (Hnames j s n Hs Hn)].
      intros x Hx. cbn [w_fs w1 take]. rewrite exists_app, orb_true_iff, exists_singleton.
      rewrite elem_of_cons. split.
      * intros [[?|Heq]|?]; [by left|right; left|by right; right].
        symmetry. eapply join_relative_inj; [|done|exact Heq].
        eapply first_free_relative, Hr.
      * intros [?|[->|?]]; [by left; left|by left; right|by right].
Qed.

(** ** The sampler *)

Lemma swap_out_Permutation {A} (l : list A) (j : nat) (x y : A) :
  l !! j = Some x → x :: <[j := y]> l ≡ₚ y :: l.
Proof.
  revert j. induction l as [|z l IH]; intros [|j] Hj; simpl in *; try done.
  - injection Hj as ->. apply perm_swap.
  - rewrite perm_swap. rewrite (IH j Hj). apply perm_swap.
Qed.

(** One round of the pool loop moves an entry of the first [m] slots to the
    result and keeps the others in the first [m - 1] slots. *)
Lemma pool_round {A} (pool : list A) (m j : nat) (x y : A) :
  (j < m)%nat → pool !! j = Some x → pool !! (m - 1)%nat = Some y →
  take m pool ≡ₚ x :: take (m - 1) (<[j := y]> pool).
Proof.
  intros Hj Hx Hy. destruct m as [|m]; [lia|]. simpl in *. rewrite Nat.sub_0_r in *.
  rewrite (take_S_r _ _ _ Hy).
  destruct (decide (j = m)) as [->|Hne].
  - rewrite take_insert_ge by lia. assert (x = y) as -> by congruence.
    by rewrite Permutation_app_comm.
  - rewrite take_insert_lt by lia. rewrite Permutation_app_comm. simpl.
    symmetry. apply swap_out_Permutation. rewrite lookup_take_lt by lia. done.
Qed.

Lemma sample_pool_spec {A} (k : nat) :
  ∀ (m : nat) (pool : list A) (w : world),
    (k ≤ m ≤ length pool)%nat → (k ≤ length (w_rng w))%nat →
    ∃ result,
      sample_pool k m pool w = Return result (with_rng w (drop k (w_rng w)))
      ∧ length result = k
      ∧ ∃ rest, take m pool ≡ₚ result ++ rest.
Proof.
  induction k as [|k IH]; intros m pool w Hm Hg.
  { exists []. destruct w. split_and!; [done|done|]. by exists (take m pool). }
  destruct w as [fs [|r g] t]; simpl in Hg; [lia|].
  assert (r mod m < m)%nat as Hj by (apply Nat.mod_upper_bound; lia).
  destruct (lookup_lt_is_Some_2 pool (r mod m)) as [x Hx]; [lia|].
  destruct (lookup_lt_is_Some_2 pool (m - 1)) as [y Hy]; [lia|].
  destruct (IH (m - 1)%nat (<[(r mod m)%nat := y]> pool) (World fs g t))
    as (result & Hrun & Hlen & rest & Hperm).
  { rewrite length_insert. lia. }
  { simpl. lia. }
  exists (x :: result). split_and!.
  - cbn [sample_pool]. unfold bind at 1, randbelow. cbn [w_rng w_fs w_trace].
    rewrite Hx, Hy. unfold bind. rewrite Hrun. done.
  - simpl. by rewrite Hlen.
  - exists rest. rewrite (pool_round pool m _ x y Hj Hx Hy). simpl. by rewrite Hperm.
Qed.

(** Whatever the generator holds, the pool loop either returns or finds
    the generator empty. *)
Lemma sample_pool_short {A} (k : nat) :
  ∀ (m : nat) (pool : list A) (w : world),
    (k ≤ m ≤ length pool)%nat → (length (w_rng w) < k)%nat →
    ∃ w', sample_pool k m pool w = OutOfFuel w'.
Proof.
  induction k as [|k IH]; intros m pool w Hm Hg; [lia|].
  destruct w as [fs [|r g] t]; simpl in Hg.
  { eexists. cbn [sample_pool]. unfold bind, randbelow. simpl. done. }
  assert (r mod m < m)%nat as Hj by (apply Nat.mod_upper_bound; lia).
  destruct (lookup_lt_is_Some_2 pool (r mod m)) as [x Hx]; [lia|].
  destruct (lookup_lt_is_Some_2 pool (m - 1)) as [y Hy]; [lia|].
  destruct (IH (m - 1)%nat (<[(r mod m)%nat := y]> pool) (World fs g t)) as [w' Hrun].
  { rewrite length_insert. lia. }
  { simpl. lia. }
  exists w'. cbn [sample_pool]. unfold bind at 1, randbelow. cbn [w_rng w_fs w_trace].
  rewrite Hx, Hy. unfold bind. by rewrite Hrun.
Qed.

(** The pool loop does not look at the entries it moves. *)
Lemma sample_pool_fmap {A B} (f : A → B) (k : nat) :
  ∀ (m : nat) (pool : list A) (w : world),
    sample_pool k m (f <$> pool) w = result_map (fmap f) (sample_pool k m pool w).
Proof.
  induction k as [|k IH]; intros m pool w; [done|].
  cbn [sample_pool]. unfold bind at 1 3, randbelow.
  destruct (w_rng w) as [|r g]; [done|]. cbn [result_map].
  rewrite !list_lookup_fmap.
  destruct (pool !! (r mod m)%nat) as [x|]; [|done]. simpl.
  destruct (pool !! (m - 1)%nat) as [y|]; [|done]. simpl.
  rewrite <- list_fmap_insert. unfold bind. rewrite IH.
  by destruct (sample_pool k (m - 1) _ _).
Qed.

Lemma draw_unselected_spec n selected g j g' :
  draw_unselected n selected g = Some (j, g') →
  (j ∉ selected) ∧ ((0 < n)%nat → (j < n)%nat).
Proof.
  induction g as [|r g IH]; simpl; [done|].
  case_decide as Hr; [done|]. intros [= <- <-]. split; [done|].
  intros Hn. apply Nat.mod_upper_bound. lia.
Qed.

Lemma sample_set_spec {A} (population : list A) (k : nat) :
  ∀ (selected : gset nat) (w : world),
    match sample_set k (length population) population selected w with
    | Return result w' =>
        w_fs w' = w_fs w ∧ w_trace w' = w_trace w
        ∧ ∃ positions,
            length positions = k ∧ NoDup positions
            ∧ (∀ i, i ∈ positions → i ∉ selected)
            ∧ drawn_at population positions result
    | OutOfFuel _ => True
    | _ => population = []
    end.
Proof.
  induction k as [|k IH]; intros selected w.
  { simpl. split_and!; [done|done|]. exists []. split_and!; [done|constructor|set_solver|constructor]. }
  cbn [sample_set].
  destruct (draw_unselected _ selected (w_rng w)) as [[j g]|] eqn:Hdraw; [|done].
  apply draw_unselected_spec in Hdraw as [Hnew Hlt].
  destruct (population !! j) as [x|] eqn:Hx; cycle 1.
  { apply lookup_ge_None in Hx. destruct population; [done|]. simpl in *. lia. }
  unfold bind.
  specialize (IH ({[j]} ∪ selected) (World (w_fs w) g (w_trace w))).
  destruct (sample_set k _ population _ _) as [result w'| | |]; try done.
  destruct IH as (Hfs & Htrace & positions & Hlen & Hnodup & Hfresh & Hdrawn).
  split_and!; [done|done|]. exists (j :: positions). split_and!.
  - simpl. by rewrite Hlen.
  - constructor; [|done]. intros Hj. apply Hfresh in Hj. set_solver.
  - intros i [->|Hi]%elem_of_cons; [done|]. apply Hfresh in Hi. set_solver.
  - by constructor.
Qed.

Lemma draw_unselected_app n selected g g' :
  draw_unselected n selected (g ++ g') =
    match draw_unselected n selected g with
    | Some (j, rest) => Some (j, rest ++ g')
    | None => draw_unselected n selected g'
    end.
Proof.
  induction g as [|r g IH]; simpl; [done|]. by case_decide.
Qed.

(** As long as fewer than [n] positions are taken, one below [n] is free. *)
Lemma fresh_position (n : nat) (selected : gset nat) :
  (size selected < n)%nat → ∃ j, (j < n)%nat ∧ j ∉ selected.
Proof.
  intros Hsize.
  destruct (decide (Forall (λ j, j ∈ selected) (seq 0 n))) as [Hall|Hsome].
  - exfalso. rewrite Forall_forall in Hall.
    assert (list_to_set (seq 0 n) ⊆ selected) as Hsub.
    { intros j Hj. apply Hall. by apply elem_of_list_to_set in Hj. }
    apply subseteq_size in Hsub.
    rewrite size_list_to_set, length_seq in Hsub by apply NoDup_seq. lia.
  - apply not_Forall_Exists in Hsome; [|apply _].
    apply Exists_exists in Hsome as (j & Hj & Hfree).
    exists j. split; [|done]. apply elem_of_seq in Hj. lia.
Qed.

(** Whatever numbers the generator holds, numbers can follow them that
    make the set loop return. *)
Lemma sample_set_extend {A} (population : list A) (k : nat) :
  ∀ (selected : gset nat) (w : world),
    (size selected + k ≤ length population)%nat →
    ∃ g' result w',
      sample_set k (length population) population selected
        (with_rng w (w_rng w ++ g')) = Return result w'.
Proof.
  induction k as [|k IH]; intros selected w Hroom; [by exists [], [], (with_rng w (w_rng w ++ []))|].
  assert (∀ j g, (j < length population)%nat → j ∉ selected →
            ∃ g' result w',
              sample_set k (length population) population ({[j]} ∪ selected)
                (with_rng w (g ++ g')) = Return result w') as Hnext.
  { intros j g Hj Hfree. apply (IH ({[j]} ∪ selected) (with_rng w g)).
    rewrite size_union by set_solver. rewrite size_singleton. lia. }
  destruct (draw_unselected (length population) selected (w_rng w)) as [[j g]|] eqn:Hdraw.
  - pose proof (draw_unselected_spec _ _ _ _ _ Hdraw) as [Hfree Hlt].
    destruct (Hnext j g) as (g' & result & w' & Hrun); [apply Hlt; lia|done|].
    destruct (lookup_lt_is_Some_2 population j) as [x Hx]; [apply Hlt; lia|].
    exists g', (x :: result), w'.
    cbn [sample_set with_rng w_rng w_fs w_trace]. rewrite draw_unselected_app, Hdraw, Hx.
    unfold bind. unfold with_rng in Hrun. cbn [w_fs w_trace] in Hrun. by rewrite Hrun.
  - destruct (fresh_position (length population) selected) as (j & Hlt & Hfree); [lia|].
    destruct (Hnext j [] Hlt Hfree) as (g' & result & w' & Hrun).
    destruct (lookup_lt_is_Some_2 population j) as [x Hx]; [done|].
    exists (j :: g'), (x :: result), w'.
    cbn [sample_set with_rng w_rng w_fs w_trace]. rewrite draw_unselected_app, Hdraw.
    cbn [draw_unselected]. rewrite Nat.mod_small by done. rewrite decide_False by done.
    rewrite Hx. unfold bind. unfold with_rng in Hrun. cbn [w_fs w_trace app] in Hrun.
    by rewrite Hrun.
Qed.

Lemma setsize_ge (k : nat) : (k ≤ setsize k)%nat.
Proof.
  unfold setsize. destruct (5 <? k)%nat eqn:Hk.
  - apply Nat.ltb_lt in Hk.
    set (L := Nat.log2_up (k * 3)).
    assert (k * 3 ≤ 2 ^ L)%nat as H1.
    { apply Nat.log2_log2_up_spec. lia. }
    assert (2 ^ L ≤ 2 ^ (2 * ((L + 1) / 2)))%nat as H2.
    { apply Nat.pow_le_mono_r; [done|].
      pose proof (Nat.div_mod_eq (L + 1) 2) as Hd.
      pose proof (Nat.mod_upper_bound (L + 1) 2). lia. }
    rewrite Nat.pow_mul_r in H2. change (2 ^ 2)%nat with 4%nat in H2. lia.
  - apply Nat.ltb_ge in Hk. lia.
Qed.

Lemma zip_seq_lookup {A} (l : list A) (i : nat) (x : A) :
  (i, x) ∈ zip (seq 0 (length l)) l → l !! i = Some x.
Proof.
  intros (idx & Hidx)%list_elem_of_lookup.
  apply lookup_zip_Some in Hidx as [Hi Hx].
  apply lookup_seq in Hi as [-> _]. done.
Qed.

Lemma random_sample_spec {A} (population : list A) (k : nat) (w : world) :
  (k ≤ length population)%nat →
  match random_sample population k w with
  | Return result w' =>
      w_fs w' = w_fs w ∧ w_trace w' = w_trace w
      ∧ length result = k
      ∧ ∃ positions, NoDup positions ∧ drawn_at population positions result
  | OutOfFuel _ => True
  | _ => False
  end.
Proof.
  intros Hk. unfold random_sample.
  destruct (Nat.ltb_spec (length population) k) as [?|_]; [lia|].
  destruct (length population <=? setsize k)%nat.
  - set (P := zip (seq 0 (length population)) population).
    assert (P.*2 = population) as Hpop by (apply snd_zip; rewrite length_seq; lia).
    assert (length P = length population) as HlenP.
    { by rewrite <- (length_fmap snd P), Hpop. }
    assert (NoDup (P.*1)) as HP.
    { unfold P. rewrite fst_zip by (rewrite length_seq; lia). apply NoDup_seq. }
    assert (∀ i x, (i, x) ∈ P → population !! i = Some x) as Hzip.
    { intros i x. apply zip_seq_lookup. }
    clearbody P.
    replace (sample_pool k (length population) population w)
      with (sample_pool k (length population) (P.*2) w) by (by rewrite Hpop).
    rewrite sample_pool_fmap.
    destruct (decide (k ≤ length (w_rng w))%nat) as [Hg|Hg].
    + destruct (sample_pool_spec k (length population) P w) as (result & -> & Hlen & rest & Hperm);
        [lia|done|].
      simpl. split_and!; [done|done|by rewrite length_fmap|].
      rewrite take_ge in Hperm by lia.
      exists (result.*1). split.
      * rewrite Hperm, fmap_app in HP. by apply NoDup_app in HP as [? _].
      * unfold drawn_at. apply Forall2_fmap. apply Forall_Forall2_diag.
        apply Forall_forall. intros [i x] Hix. simpl.
        apply Hzip. rewrite Hperm. apply elem_of_app. by left.
    + destruct (sample_pool_short k (length population) P w) as [w' ->]; [lia|lia|]. done.
  - pose proof (sample_set_spec population k ∅ w) as Hset.
    destruct (sample_set k _ population ∅ w) as [result w'| | |] eqn:E; try done.
    + destruct Hset as (? & ? & positions & Hlen & ? & _ & Hdrawn).
      split_and!; [done|done| |by exists positions].
      apply Forall2_length in Hdrawn. lia.
    + subst population. simpl in Hk. assert (k = 0)%nat as -> by lia. done.
    + subst population. simpl in Hk. assert (k = 0)%nat as -> by lia. done.
Qed.

Lemma drawn_at_elem_of {A} (population : list A) positions result x :
  drawn_at population positions result → x ∈ result → x ∈ population.
Proof.
  intros Hdrawn (j & Hj)%list_elem_of_lookup.
  destruct (Forall2_lookup_r _ _ _ _ _ Hdrawn Hj) as (i & _ & Hi).
  by eapply list_elem_of_lookup_2.
Qed.

Lemma drawn_at_NoDup {A} (population : list A) positions result :
  NoDup positions → drawn_at population positions result →
  NoDup population → NoDup result.
Proof.
  intros Hpos Hdrawn Hpop. apply NoDup_alt. intros a b x Ha Hb.
  destruct (Forall2_lookup_r _ _ _ _ _ Hdrawn Ha) as (i & Hia & Hi).
  destruct (Forall2_lookup_r _ _ _ _ _ Hdrawn Hb) as (j & Hjb & Hj).
  assert (i = j) as <- by (eapply NoDup_alt; [exact Hpop|exact Hi|exact Hj]).
  eapply NoDup_alt; [exact Hpos|exact Hia|exact Hjb].
Qed.

Lemma select_songs_in_range (songs : list path) (count : Z) (w : world) :
  (count ≤ Z.of_nat (length songs))%Z →
  select_songs songs count w =
    match random_sample songs (Z.to_nat count) w with
    | Return selected w' =>
        Return selected
          (World (w_fs w') (w_rng w')
             (w_trace w' ++ [Stdout (nl +:+ "Selected " +:+ str_int count +:+ " songs.")]))
    | SysExit c w' => SysExit c w'
    | Raise e w' => Raise e w'
    | OutOfFuel w' => OutOfFuel w'
    end.
Proof.
  intros Hle. unfold select_songs. rewrite Z.min_l by done.
  rewrite Z.ltb_irrefl. unfold bind at 1, ret at 1. unfold bind at 1.
  destruct (random_sample songs (Z.to_nat count) w); try done.
Qed.

(** C1. For every non-empty song collection and every count from 1 to the
    size of the collection, the sampler hands back exactly [count] songs,
    taken from pairwise different positions of the collection: every one
    of them is a song of the input, no entry of the input is used twice,
    and a collection without duplicate paths gives a selection without
    duplicates.  The sampler neither exits nor raises; it stops short only
    when the generator has no number left, which cannot happen in the pool
    loop when [count] numbers are there; and whatever numbers the generator
    holds, numbers can follow them that make the sampler return. *)
Theorem select_songs_distinct_entries (songs : list path) (count : Z) (w : world) :
  songs ≠ [] → (1 ≤ count ≤ Z.of_nat (length songs))%Z →
  match select_songs songs count w with
  | Return selected w' =>
      Z.of_nat (length selected) = count
      ∧ (∃ positions, NoDup positions ∧ drawn_at songs positions selected)
      ∧ (∀ s, s ∈ selected → s ∈ songs)
      ∧ (NoDup songs → NoDup selected)
  | OutOfFuel _ =>
      (length (w_rng w) < Z.to_nat count)%nat
      ∨ (setsize (Z.to_nat count) < length songs)%nat
  | _ => False
  end
  ∧ ∃ g selected w',
      select_songs songs count (with_rng w (w_rng w ++ g)) = Return selected w'.
Proof.
  intros Hne Hcount. split.
  - rewrite select_songs_in_range by lia.
    pose proof (random_sample_spec songs (Z.to_nat count) w) as Hspec.
    destruct (random_sample songs (Z.to_nat count) w) as [selected w'| | |] eqn:E.
    + destruct Hspec as (_ & _ & Hlen & positions & Hnodup & Hdrawn); [lia|].
      split_and!.
      * lia.
      * by exists positions.
      * intros s. by apply drawn_at_elem_of with positions.
      * by apply drawn_at_NoDup with positions.
    + apply Hspec. lia.
    + apply Hspec. lia.
    + unfold random_sample in E.
      destruct (Nat.ltb_spec (length songs) (Z.to_nat count)); [done|].
      destruct (Nat.leb_spec (length songs) (setsize (Z.to_nat count))); [|by right].
      left. destruct (decide (Z.to_nat count ≤ length (w_rng w))%nat) as [Hg|Hg]; [|lia].
      destruct (sample_pool_spec (Z.to_nat count) (length songs) songs w)
        as (result & Hrun & _); [lia|done|]. congruence.
  - assert (∃ g result w',
              random_sample songs (Z.to_nat count) (with_rng w (w_rng w ++ g))
                = Return result w') as (g & result & w' & Hrun).
    { unfold random_sample.
      destruct (Nat.ltb_spec (length songs) (Z.to_nat count)); [lia|].
      destruct (length songs <=? setsize (Z.to_nat count))%nat.
      - exists (seq 0 (Z.to_nat count)).
        destruct (sample_pool_spec (Z.to_nat count) (length songs) songs
                    (with_rng w (w_rng w ++ seq 0 (Z.to_nat count))))
          as (result & -> & _); [lia|simpl; rewrite length_app, length_seq; lia|].
        by eexists _, _.
      - apply sample_set_extend. rewrite size_empty. lia. }
    exists g. rewrite select_songs_in_range by lia. rewrite Hrun. by eexists _, _.
Qed.

Lemma select_songs_distinct_entries_witness :
  match select_songs ["/m/a.mp3"; "/m/b.mp3"; "/m/a.mp3"] 2 (World [] [7; 4] []) with
  | Return selected _ =>
      selected = ["/m/b.mp3"; "/m/a.mp3"]
      ∧ ∃ positions, NoDup positions
          ∧ drawn_at ["/m/a.mp3"; "/m/b.mp3"; "/m/a.mp3"] positions selected
  | _ => False
  end.
Proof.
  pose proof (select_songs_distinct_entries
                ["/m/a.mp3"; "/m/b.mp3"; "/m/a.mp3"] 2 (World [] [7; 4] [])) as H.
  destruct H as [H _]; [done|simpl; lia|].
  revert H.
  change (select_songs ["/m/a.mp3"; "/m/b.mp3"; "/m/a.mp3"] 2 (World [] [7; 4] []))
    with (Return ["/m/b.mp3"; "/m/a.mp3"]
            (World [] [] [Stdout (nl +:+ "Selected 2 songs.")])).
  intros (_ & Hpos & _). split; [reflexivity|exact Hpos].
Defined.

(** With the same path at two positions of the input, both positions can
    be drawn: the path is then twice in the selection. *)
Example select_songs_duplicate_paths :
  ∃ w', select_songs ["/m/a.mp3"; "/m/b.mp3"; "/m/a.mp3"] 2 (World [] [0; 0] [])
          = Return ["/m/a.mp3"; "/m/a.mp3"] w'.
Proof. by eexists. Qed.

(** ** The song collector *)

Lemma sorted_spec (l : list string) :
  Sorted String.le (sorted l) ∧ sorted l ≡ₚ l.
Proof. split; [apply Sorted_merge_sort, _|apply merge_sort_Permutation]. Qed.

Lemma sorted_elements (X : gset string) :
  Sorted String.le (sorted (elements X))
  ∧ NoDup (sorted (elements X))
  ∧ ∀ x, x ∈ sorted (elements X) ↔ x ∈ X.
Proof.
  destruct (sorted_spec (elements X)) as [Hsorted Hperm]. split_and!; [done| |].
  - rewrite Hperm. apply NoDup_elements.
  - intros x. rewrite Hperm. apply elem_of_elements.
Qed.

Lemma collect_loop_spec (genres : gmap string path) (names : list string) :
  ∀ (songs : list path) (w : world),
    (∀ name, name ∈ names → is_Some (genres !! name)) →
    collect_loop genres names songs w =
      Return (songs ++ concat (genre_songs (w_fs w) genres <$> names))
        (World (w_fs w) (w_rng w)
           (w_trace w ++ concat (genre_events (w_fs w) genres <$> names))).
Proof.
  induction names as [|name names IH]; intros songs w Hknown.
  { simpl. rewrite !app_nil_r. by destruct w. }
  destruct (Hknown name) as [folder Hfolder]; [apply list_elem_of_here|].
  cbn [collect_loop fmap list_fmap concat]. unfold genre_events, genre_songs at 1 3.
  rewrite Hfolder. unfold bind at 1, get_fs.
  destruct (FS.exists_ (w_fs w) folder) eqn:Hex; simpl negb; cbv iota.
  - unfold scan_audio_files, bind, get_fs, emit, ret, print. simpl.
    rewrite IH by (intros; apply Hknown; by apply list_elem_of_further).
    simpl. by rewrite <- !app_assoc.
  - unfold bind, eprint, emit. simpl.
    rewrite IH by (intros; apply Hknown; by apply list_elem_of_further).
    simpl. by rewrite <- !app_assoc.
Qed.

Lemma collect_songs_known (genres : gmap string path) requested (w : world) :
  selected_genres genres requested ⊆ dom genres →
  collect_songs genres requested w =
    collect_loop genres (sorted (elements (selected_genres genres requested))) [] w.
Proof.
  intros Hsub. unfold collect_songs, selected_genres in *.
  destruct requested as [[|r req]|]; try done.
  rewrite decide_True by set_solver. done.
Qed.

(** C6. The collector works through the selected genres in sorted name
    order (the names, sorted and each once).  Its result is the
    concatenation, in that order, of what each genre contributes: the audio
    files below its folder in scan order, nothing being removed when a file
    comes up more than once; a genre whose folder is not on the disk
    contributes no song and leaves a warning on the error stream, and the
    run goes on. *)
Theorem collect_songs_sorted_concat (genres : gmap string path)
    (requested : option (list string)) (w : world) :
  selected_genres genres requested ⊆ dom genres →
  ∃ names : list string,
    Sorted String.le names ∧ NoDup names
    ∧ (∀ x, x ∈ names ↔ x ∈ selected_genres genres requested)
    ∧ collect_songs genres requested w =
        Return (concat (genre_songs (w_fs w) genres <$> names))
          (World (w_fs w) (w_rng w)
             (w_trace w ++ concat (genre_events (w_fs w) genres <$> names)))
    ∧ (∀ name folder,
         genres !! name = Some folder → FS.exists_ (w_fs w) folder = false →
         genre_songs (w_fs w) genres name = []
         ∧ genre_events (w_fs w) genres name =
             [Stderr ("Warning: Folder for " +:+ name +:+ " does not exist: " +:+ folder)])
    ∧ (∀ name folder,
         genres !! name = Some folder → FS.exists_ (w_fs w) folder = true →
         genre_songs (w_fs w) genres name =
           List.filter (λ f, FS.is_file (w_fs w) f && is_audio f) (FS.rglob (w_fs w) folder)).
Proof.
  intros Hsub. exists (sorted (elements (selected_genres genres requested))).
  destruct (sorted_elements (selected_genres genres requested)) as (Hsorted & Hnodup & Hin).
  split_and!; [done|done|done| | |].
  - rewrite collect_songs_known by done. rewrite collect_loop_spec; [done|].
    intros name Hname. apply elem_of_dom, Hsub, Hin, Hname.
  - intros name folder Hfolder Hex. unfold genre_songs, genre_events.
    by rewrite Hfolder, Hex.
  - intros name folder Hfolder Hex. unfold genre_songs. by rewrite Hfolder, Hex.
Qed.

Lemma collect_songs_sorted_concat_witness :
  selected_genres Ex.registry None ⊆ dom Ex.registry
  ∧ ∃ names : list string,
      Sorted String.le names ∧ NoDup names
      ∧ collect_songs Ex.registry None (World Ex.library [] []) =
          Return (concat (genre_songs Ex.library Ex.registry <$> names))
            (World Ex.library [] (concat (genre_events Ex.library Ex.registry <$> names))).
Proof.
  split; [done|].
  destruct (collect_songs_sorted_concat Ex.registry None (World Ex.library [] []))
    as (names & Hsorted & Hnodup & _ & Hrun & _); [done|].
  exists names. split_and!; [exact Hsorted|exact Hnodup|exact Hrun].
Defined.

(** The registry names [ROCK] and [JAZZ], the folder of [JAZZ] is not on
    the disk: the three audio files of [ROCK] are collected, scan order
    kept, and [JAZZ] gets a warning. *)
Example collect_songs_missing_folder :
  collect_songs Ex.registry None (World Ex.library [] []) =
    Return ["/music/rock/one.mp3"; "/music/rock/two.MP3"; "/music/rock/live/three.mp3"]
      (World Ex.library []
         [ Stderr "Warning: Folder for JAZZ does not exist: /music/jazz";
           Rglob "/music/rock"; Stdout "  ROCK: 3 files found" ]).
Proof. reflexivity. Qed.

(** A file that two selected folders reach is collected once for each. *)
Example collect_songs_keeps_duplicates :
  ∃ w', collect_songs (<["LIVE" := "/music/rock/live"]> Ex.registry) (Some ["rock"; "live"])
          (World Ex.library [] []) =
        Return [ "/music/rock/live/three.mp3";
                 "/music/rock/one.mp3"; "/music/rock/two.MP3"; "/music/rock/live/three.mp3" ] w'.
Proof. by eexists. Qed.



(** [--genres POP] with a registry of [ROCK] and [JAZZ], for the collector
    and for the whole run *)
Example main_unknown_pop :
  main Ex.script_dir Ex.dotenv Ex.resolve
    (Arguments_ (Some ["POP"]) (Some 2%Z) "playlist.m3u" None false)
    (World Ex.library [5; 3] [])
  = SysExit 1
      (World Ex.library [5; 3]
         [ Stdout "Scanning folders...";
           Stderr "Error: Unknown genre(s): POP"; Stderr "Available: JAZZ, ROCK" ]).
Proof. reflexivity. Qed.

Example collect_songs_unknown_pop :
  collect_songs Ex.registry (Some ["pop"]) (World Ex.library [] []) =
    SysExit 1
      (World Ex.library []
         [ Stderr "Error: Unknown genre(s): POP"; Stderr "Available: JAZZ, ROCK" ]).
Proof. reflexivity. Qed.

(** ** The genre registry *)

Lemma upper_char_idemp (c : ascii) : Str.upper_char (Str.upper_char c) = Str.upper_char c.
Proof. destruct c as [[] [] [] [] [] [] [] []]; reflexivity. Qed.

Lemma upper_idemp (s : string) : Str.upper (Str.upper s) = Str.upper s.
Proof.
  unfold Str.upper. induction s as [|c s IH]; [done|].
  simpl. by rewrite upper_char_idemp, IH.
Qed.

Section registry_facts.

Variable SCRIPT_DIR : path.
Variable dotenv_values : filesystem → path → list (string * option string).
Variable resolve : filesystem → path → path.
Variable fs : filesystem.

Local Abbreviation add := (add_genre SCRIPT_DIR resolve fs).
Local Abbreviation folder := (folder_of SCRIPT_DIR resolve fs).

Lemma add_genre_usable genres key value :
  value ≠ "" → add genres (key, Some value) = <[Str.upper key := folder value]> genres.
Proof.
  intros Hne. unfold add_genre, folder_of. simpl.
  by destruct (String.eqb_spec value "").
Qed.

Lemma add_genre_unusable genres item : ¬ usable item → add genres item = genres.
Proof.
  intros Hno. unfold add_genre. destruct item as [key [value|]]; simpl; [|done].
  destruct (String.eqb_spec value ""); [done|]. destruct Hno. by exists value.
Qed.

Lemma usable_dec item : usable item ∨ ¬ usable item.
Proof.
  destruct item as [key [value|]].
  - destruct (decide (value = "")) as [->|Hne].
    + right. intros (v & [= <-] & Hv). done.
    + left. by exists value.
  - right. intros (v & [=] & _).
Qed.

(** Where an entry of the registry comes from *)
Lemma registry_origin values : ∀ genres name p,
  foldl add genres values !! name = Some p →
  genres !! name = Some p
  ∨ ∃ key value, (key, Some value) ∈ values ∧ value ≠ ""
      ∧ name = Str.upper key ∧ p = folder value.
Proof.
  induction values as [|item values IH]; intros genres name p Hp; simpl in Hp; [by left|].
  apply IH in Hp as [Hp|(key & value & Hin & ? & ? & ?)]; cycle 1.
  { right. exists key, value. split_and!; try done. by apply list_elem_of_further. }
  destruct (usable_dec item) as [(value & Hvalue & Hne)|Hno].
  - destruct item as [key v]. simpl in Hvalue. subst v.
    rewrite add_genre_usable in Hp by done.
    destruct (decide (Str.upper key = name)) as [<-|Hother].
    + rewrite lookup_insert_eq in Hp. injection Hp as <-.
      right. exists key, value. split_and!; try done. apply list_elem_of_here.
    + rewrite lookup_insert_ne in Hp by done. by left.
  - rewrite add_genre_unusable in Hp by done. by left.
Qed.

(** Pairs for other names leave a name alone *)
Lemma registry_untouched values : ∀ genres name,
  (∀ key value, (key, Some value) ∈ values → value ≠ "" → Str.upper key ≠ name) →
  foldl add genres values !! name = genres !! name.
Proof.
  induction values as [|item values IH]; intros genres name Hother; simpl; [done|].
  rewrite IH by (intros; eapply Hother; [by apply list_elem_of_further|done]).
  destruct (usable_dec item) as [(value & Hvalue & Hne)|Hno].
  - destruct item as [key v]. simpl in Hvalue. subst v.
    rewrite add_genre_usable by done. apply lookup_insert_ne.
    eapply Hother; [apply list_elem_of_here|done].
  - by rewrite add_genre_unusable.
Qed.

(** The last usable pair of a name decides its folder *)
Lemma registry_last_wins genres before key value after :
  value ≠ "" →
  (∀ k v, (k, Some v) ∈ after → v ≠ "" → Str.upper k ≠ Str.upper key) →
  foldl add genres (before ++ (key, Some value) :: after) !! Str.upper key
    = Some (folder value).
Proof.
  intros Hne Hafter. rewrite foldl_app. simpl.
  rewrite registry_untouched by done.
  rewrite add_genre_usable by done. apply lookup_insert_eq.
Qed.

Lemma registry_keeps values : ∀ genres name,
  is_Some (genres !! name) → is_Some (foldl add genres values !! name).
Proof.
  induction values as [|item values IH]; intros genres name Hname; simpl; [done|].
  apply IH. destruct (usable_dec item) as [(value & Hvalue & Hne)|Hno].
  - destruct item as [key v]. simpl in Hvalue. subst v.
    rewrite add_genre_usable by done. rewrite lookup_insert.
    by case_decide.
  - by rewrite add_genre_unusable.
Qed.

Lemma registry_has_usable values : ∀ genres key value,
  (key, Some value) ∈ values → value ≠ "" →
  is_Some (foldl add genres values !! Str.upper key).
Proof.
  induction values as [|item values IH]; intros genres key value Hin Hne.
  { by apply elem_of_nil in Hin. }
  simpl. apply elem_of_cons in Hin as [<-|Hin]; [|by eapply IH].
  rewrite add_genre_usable by done. apply registry_keeps.
  rewrite lookup_insert_eq. by eexists.
Qed.

Lemma registry_empty values :
  foldl add ∅ values = ∅ ↔ Forall (λ item, ¬ usable item) values.
Proof.
  split.
  - intros Hempty. apply Forall_forall. intros [key v] Hin (value & Hv & Hne).
    simpl in Hv. subst v.
    destruct (registry_has_usable values ∅ key value Hin Hne) as [p Hp].
    rewrite Hempty in Hp. by rewrite lookup_empty in Hp.
  - intros Hall. apply map_eq. intros name. rewrite lookup_empty.
    destruct (foldl add ∅ values !! name) as [p|] eqn:E; [|done].
    apply registry_origin in E as [E|(key & value & Hin & Hne & _)].
    + by rewrite lookup_empty in E.
    + rewrite Forall_forall in Hall. destruct (Hall _ Hin). by exists value.
Qed.

Lemma load_genres_run (w : world) :
  w_fs w = fs →
  let env_path := Path.join SCRIPT_DIR ".env" in
  let genres := foldl add ∅ (dotenv_values fs env_path) in
  load_genres SCRIPT_DIR dotenv_values resolve w =
    if FS.exists_ fs env_path then
      if decide (genres = ∅) then
        SysExit 1 (World (w_fs w) (w_rng w)
                     (w_trace w ++ [Stderr "Error: No genre mappings found in .env file."]))
      else Return genres w
    else
      SysExit 1 (World (w_fs w) (w_rng w)
                   (w_trace w ++
                      [ Stderr ("Error: No .env file found at " +:+ env_path);
                        Stderr "Create one with genre=folder mappings. See .env.example." ])).
Proof.
  intros <-. unfold load_genres, bind, get_fs. simpl.
  destruct (FS.exists_ (w_fs w) _); simpl.
  - destruct (decide (_ = ∅)); [|done]. by unfold bind, eprint, emit, sys_exit.
  - unfold bind, eprint, emit, sys_exit. simpl. by rewrite <- app_assoc.
Qed.

End registry_facts.

Lemma load_genres_same_world SCRIPT_DIR dotenv_values resolve w w' genres :
  load_genres SCRIPT_DIR dotenv_values resolve w = Return genres w' → w' = w.
Proof.
  intros Hload.
  rewrite (load_genres_run SCRIPT_DIR dotenv_values resolve (w_fs w) w eq_refl) in Hload.
  cbv zeta in Hload. destruct (FS.exists_ (w_fs w) _); [|done].
  destruct (decide (_ = ∅)); [done|]. by injection Hload as _ <-.
Qed.


Lemma resolve_absolute fs p : Path.is_absolute (Ex.resolve fs p) = true.
Proof. unfold Ex.resolve. by destruct (Path.is_absolute p) eqn:E. Qed.


(** The registry of the example: two spellings of [rock] make one entry,
    the relative folder of [jazz] is taken from the directory of the
    script, and the keys without a usable value are left out. *)
Example load_genres_example :
  load_genres Ex.script_dir Ex.dotenv Ex.resolve (World Ex.library [] [])
    = Return (<["ROCK" := "/music/rock"]> (<["JAZZ" := "/app/music/jazz"]> ∅))
        (World Ex.library [] []).
Proof. reflexivity. Qed.



(** ** The portable copy *)



(** The whole call on the same stick: the directory is there already, the
    two songs are copied under their new names, and the playlist lists
    these names in the order of the copies. *)
Example copy_to_directory_usb :
  ∃ w', copy_to_directory ["/music/rock/song.mp3"; "/music/jazz/song.mp3"] "/usb"
          "playlist.m3u" (World Ex.usb [] []) = Return () w'
        ∧ FS.lookup (w_fs w') "/usb/song.mp3" = Some (File "old")
        ∧ FS.lookup (w_fs w') "/usb/song_2.mp3" = Some (File "rock")
        ∧ FS.lookup (w_fs w') "/usb/song_3.mp3" = Some (File "jazz")
        ∧ FS.lookup (w_fs w') "/usb/playlist.m3u"
            = Some (File ("#EXTM3U" +:+ nl +:+ "song_2.mp3" +:+ nl +:+ "song_3.mp3" +:+ nl)).
Proof. eexists. split; [vm_compute; reflexivity|]. by split_and!. Qed.

(** ** The main program *)

Lemma genre_songs_files fs genres name :
  Forall (λ s, FS.is_file fs s = true) (genre_songs fs genres name).
Proof.
  unfold genre_songs. destruct (genres !! name) as [folder|]; [|constructor].
  destruct (FS.exists_ fs folder); [|constructor].
  apply Forall_forall. intros s Hs. apply list_elem_of_In, filter_In in Hs as [_ Hs].
  by apply andb_true_iff in Hs as [? _].
Qed.

Lemma collect_songs_Return genres requested w songs w' :
  collect_songs genres requested w = Return songs w' →
  w_fs w' = w_fs w ∧ w_rng w' = w_rng w
  ∧ (∃ t, w_trace w' = w_trace w ++ t)
  ∧ Forall (λ s, FS.is_file (w_fs w) s = true) songs.
Proof.
  intros Hrun.
  assert (selected_genres genres requested ⊆ dom genres) as Hsub.
  { unfold collect_songs, selected_genres in *.
    destruct requested as [[|r req]|]; try done.
    destruct (decide (_ = ∅)) as [Hempty|]; [set_solver|done]. }
  rewrite collect_songs_known in Hrun by done. rewrite collect_loop_spec in Hrun; cycle 1.
  { intros name Hname. apply elem_of_dom, Hsub. by apply sorted_elements. }
  injection Hrun as <- <-. simpl.
  split_and!; [done|done|by eexists|].
  apply Forall_concat, Forall_fmap, Forall_forall. intros name _.
  apply genre_songs_files.
Qed.

(** Asked for as many entries as there are, [random.sample] takes the pool
    loop and returns a rearrangement of the population. *)
Lemma random_sample_all {A} (population : list A) (w : world) :
  (length population ≤ length (w_rng w))%nat →
  ∃ result,
    random_sample population (length population) w
      = Return result (with_rng w (drop (length population) (w_rng w)))
    ∧ result ≡ₚ population.
Proof.
  intros Hg. unfold random_sample. rewrite Nat.ltb_irrefl.
  destruct (Nat.leb_spec (length population) (setsize (length population))) as [_|Hlt];
    [|pose proof (setsize_ge (length population)); lia].
  destruct (sample_pool_spec (length population) (length population) population w)
    as (result & Hrun & Hlen & rest & Hperm); [lia|done|].
  exists result. split; [done|].
  rewrite take_ge in Hperm by lia.
  assert (rest = []) as ->.
  { apply Permutation_length in Hperm. rewrite length_app in Hperm.
    destruct rest; [done|simpl in Hperm; lia]. }
  by rewrite app_nil_r in Hperm.
Qed.

Lemma select_songs_clamped (songs : list path) (requested : Z) (w : world) :
  (Z.of_nat (length songs) < requested)%Z →
  (length songs ≤ length (w_rng w))%nat →
  ∃ selected,
    select_songs songs requested w =
      Return selected
        (World (w_fs w) (drop (length songs) (w_rng w))
           (w_trace w ++
              [ Stdout (clamp_note (Z.of_nat (length songs)) requested);
                Stdout (nl +:+ "Selected " +:+ str_int (Z.of_nat (length songs)) +:+ " songs.") ]))
    ∧ selected ≡ₚ songs.
Proof.
  intros Hlt Hg. unfold select_songs. rewrite Z.min_r by lia.
  assert ((Z.of_nat (length songs) <? requested)%Z = true) as -> by (by apply Z.ltb_lt).
  rewrite Nat2Z.id.
  destruct (random_sample_all songs
              (World (w_fs w) (w_rng w) (w_trace w ++ [Stdout (clamp_note (Z.of_nat (length songs)) requested)])))
    as (selected & Hrun & Hperm); [done|].
  exists selected. split; [|done].
  unfold bind at 1, print at 1, emit. unfold bind at 1. rewrite Hrun.
  unfold bind, print, emit, ret, with_rng. simpl. by rewrite <- app_assoc.
Qed.

Lemma mkdirs_app ps : ∀ fs fs',
  FS.mkdirs fs ps = Some fs' → ∃ dirs, fs' = fs ++ dirs.
Proof.
  induction ps as [|p ps IH]; intros fs fs'; simpl.
  - intros [= <-]. exists []. by rewrite app_nil_r.
  - destruct (FS.lookup fs p) as [[|data]|]; [apply IH|done|].
    intros (dirs & ->)%IH. eexists. by rewrite <- app_assoc.
Qed.

Lemma bind_Return {A B} (m : M A) (k : A → M B) w a w' :
  m w = Return a w' → bind m k w = k a w'.
Proof. unfold bind. by intros ->. Qed.

Lemma print_run line w :
  print line w = Return () (World (w_fs w) (w_rng w) (w_trace w ++ [Stdout line])).
Proof. reflexivity. Qed.

Lemma mkdir_run target_dir w fs' :
  FS.mkdir_p (w_fs w) target_dir = Some fs' →
  mkdir target_dir w = Return () (World fs' (w_rng w) (w_trace w ++ [Mkdir target_dir])).
Proof. intros Hmk. unfold mkdir, bind, get_fs, emit, set_fs. simpl. by rewrite Hmk. Qed.

Lemma write_m3u_run filepath entries w :
  FS.is_dir (w_fs w) filepath = false →
  write_m3u filepath entries w =
    Return () (World (FS.put (w_fs w) filepath (File (m3u_text entries))) (w_rng w)
                 (w_trace w ++ [OpenW filepath])).
Proof. intros Hdir. unfold write_m3u, bind, get_fs, emit, set_fs. simpl. by rewrite Hdir. Qed.

Lemma copy_to_directory_run songs target_dir output_name w fs' :
  FS.mkdir_p (w_fs w) target_dir = Some fs' →
  FS.is_dir fs' (Path.join target_dir output_name) = false →
  Forall (λ s, FS.is_file (w_fs w) s = true) songs →
  ∃ w', copy_to_directory songs target_dir output_name w = Return () w'
        ∧ ∃ t, w_trace w' = w_trace w ++ t.
Proof.
  intros Hmk Hout Hfiles.
  destruct (mkdirs_app _ _ _ Hmk) as [dirs ->].
  set (w1 := World (w_fs w ++ dirs) (w_rng w) (w_trace w ++ [Mkdir target_dir])).
  destruct (copy_loop_spec target_dir (length songs) songs 1 [] w1)
    as (names & w2 & Hloop & _ & _ & Hdirs & [t Htrace] & _).
  { eapply Forall_impl; [exact Hfiles|]. intros s Hs. by apply is_file_app. }
  assert (FS.is_dir (w_fs w2) (Path.join target_dir output_name) = false) as Hout2.
  { by rewrite Hdirs. }
  eexists. split.
  - unfold copy_to_directory.
    rewrite (bind_Return _ _ _ _ _ (mkdir_run _ _ _ Hmk)). fold w1.
    rewrite (bind_Return _ _ _ _ _ Hloop). cbn [app].
    rewrite (bind_Return _ _ _ _ _ (write_m3u_run _ _ _ Hout2)).
    rewrite (bind_Return _ _ _ _ _ (print_run _ _)).
    apply print_run.
  - cbn [w_trace]. rewrite Htrace. cbn [w1 w_trace]. eexists. by rewrite <- !app_assoc.
Qed.

Lemma emit_playlist_run args selected w :
  can_emit args (w_fs w) = true →
  Forall (λ s, FS.is_file (w_fs w) s = true) selected →
  ∃ w', emit_playlist args selected w = Return () w'
        ∧ ∃ t, w_trace w' = w_trace w ++ t.
Proof.
  unfold can_emit, emit_playlist. intros Hcan Hfiles.
  assert (FS.is_dir (w_fs w) (args_output args) = false →
          ∃ w', (write_m3u (args_output args) selected ;;;
                 print ("Playlist written to " +:+ args_output args)) w = Return () w'
                ∧ ∃ t, w_trace w' = w_trace w ++ t) as Hplain.
  { intros Hdir. eexists. split.
    - rewrite (bind_Return _ _ _ _ _ (write_m3u_run _ _ _ Hdir)). apply print_run.
    - cbn [w_trace]. eexists. by rewrite <- !app_assoc. }
  destruct (args_copy_to args) as [[|c target_dir]|].
  - apply Hplain. by apply negb_true_iff.
  - destruct (FS.mkdir_p _ _) as [fs'|] eqn:Hmk; [|done]. apply negb_true_iff in Hcan.
    destruct (copy_to_directory_run selected (String c target_dir) (args_output args)
                (World (w_fs w) (w_rng w)
                   (w_trace w ++ [Stdout (nl +:+ "Copying files to " +:+ String c target_dir +:+ "...")]))
                fs' Hmk Hcan Hfiles) as (w' & Hrun & t & Htrace).
    exists w'. split.
    + rewrite (bind_Return _ _ _ _ _ (print_run _ _)). exact Hrun.
    + rewrite Htrace. cbn [w_trace]. eexists. by rewrite <- !app_assoc.
  - apply Hplain. by apply negb_true_iff.
Qed.

Lemma copy_loop_no_exit target_dir total songs : ∀ i acc w,
  no_exit (copy_loop target_dir total i songs acc w).
Proof.
  induction songs as [|song songs IH]; intros i acc w; [done|].
  destruct (unique_filename_returns target_dir (Path.name song) w) as (r & Hrun & _).
  cbn [copy_loop]. unfold bind at 1. rewrite Hrun.
  unfold bind at 1, print, emit. unfold bind at 1, copy2, bind, get_fs, emit.
  cbn [w_fs w_rng w_trace].
  destruct (FS.lookup (w_fs w) song) as [[|data]|]; [done| |done].
  unfold set_fs. apply IH.
Qed.

Lemma bind_no_exit {A B} (m : M A) (k : A → M B) w :
  no_exit (m w) → (∀ a w', no_exit (k a w')) → no_exit (bind m k w).
Proof. unfold bind. intros Hm Hk. destruct (m w); [apply Hk|done|done|done]. Qed.

Lemma write_m3u_no_exit filepath entries w : no_exit (write_m3u filepath entries w).
Proof.
  unfold write_m3u, bind, get_fs, emit. simpl. by destruct (FS.is_dir (w_fs w) filepath).
Qed.

Lemma mkdir_no_exit target_dir w : no_exit (mkdir target_dir w).
Proof.
  unfold mkdir, bind, get_fs, emit. simpl. by destruct (FS.mkdir_p (w_fs w) target_dir).
Qed.

Lemma emit_playlist_no_exit args selected w : no_exit (emit_playlist args selected w).
Proof.
  assert (∀ w0, no_exit ((write_m3u (args_output args) selected ;;;
                          print ("Playlist written to " +:+ args_output args)) w0)) as Hplain.
  { intros w0. apply bind_no_exit; [apply write_m3u_no_exit|done]. }
  unfold emit_playlist. destruct (args_copy_to args) as [[|c target_dir]|]; [done| |done].
  apply bind_no_exit; [done|]. intros _ w1. unfold copy_to_directory.
  apply bind_no_exit; [apply mkdir_no_exit|]. intros _ w2.
  apply bind_no_exit; [apply copy_loop_no_exit|]. intros names w3.
  apply bind_no_exit; [apply write_m3u_no_exit|]. intros _ w4.
  apply bind_no_exit; done.
Qed.

(** C8. Without [--list], a count below 1 or no count at all ends the run
    with a non-zero status before the collection starts: when the registry
    loads, the status is 2 and the one line written is the message of
    [parser.error]; when it does not load, the run has ended already, with
    status 1.  Either way the file system is as before and nothing but
    lines on the error stream is added to the trace: no folder is scanned. *)
Theorem main_count_checked_first (SCRIPT_DIR : path)
    (dotenv_values : filesystem → path → list (string * option string))
    (resolve : filesystem → path → path) (args : arguments) (w : world) :
  args_list args = false →
  (args_count args = None ∨ ∃ n, args_count args = Some n ∧ (n < 1)%Z) →
  ∃ (code : Z) (lines : list string),
    main SCRIPT_DIR dotenv_values resolve args w =
      SysExit code (World (w_fs w) (w_rng w) (w_trace w ++ (Stderr <$> lines)))
    ∧ code ≠ 0%Z
    ∧ (∀ folder, Rglob folder ∉ Stderr <$> lines)
    ∧ (∀ genres w1,
         load_genres SCRIPT_DIR dotenv_values resolve w = Return genres w1 →
         code = 2%Z
         ∧ lines = [ match args_count args with
                     | None => "error: --count / -n is required when not using --list"
                     | Some _ => "error: --count must be at least 1"
                     end ]).
Proof.
  intros Hlist Hcount.
  assert (∀ lines : list string, ∀ folder, Rglob folder ∉ Stderr <$> lines) as Hnoscan.
  { intros lines folder (line & [=] & _)%list_elem_of_fmap. }
  pose proof (load_genres_run SCRIPT_DIR dotenv_values resolve (w_fs w) w eq_refl) as Hload.
  cbv zeta in Hload. unfold main, bind at 1. rewrite Hload.
  destruct (FS.exists_ (w_fs w) _).
  - destruct (decide (_ = ∅)) as [Hempty|Hfull].
    + eexists 1%Z, [_]. split_and!; [reflexivity|done|apply Hnoscan|done].
    + rewrite Hlist.
      destruct Hcount as [Hnone|(n & Hsome & Hn)].
      * rewrite Hnone. eexists 2%Z, [_]. split_and!; [reflexivity|done|apply Hnoscan|done].
      * rewrite Hsome. assert ((n <? 1)%Z = true) as -> by (by apply Z.ltb_lt).
        eexists 2%Z, [_]. split_and!; [reflexivity|done|apply Hnoscan|done].
  - eexists 1%Z, [_; _]. split_and!; [reflexivity|done|apply Hnoscan|done].
Qed.

Lemma main_count_checked_first_witness :
  ∃ (code : Z) (lines : list string),
    main Ex.script_dir Ex.dotenv Ex.resolve
      (Arguments_ None (Some 0%Z) "playlist.m3u" None false) (World Ex.library [5; 3] [])
    = SysExit code (World Ex.library [5; 3] (Stderr <$> lines))
    ∧ code ≠ 0%Z.
Proof.
  destruct (main_count_checked_first Ex.script_dir Ex.dotenv Ex.resolve
              (Arguments_ None (Some 0%Z) "playlist.m3u" None false)
              (World Ex.library [5; 3] []))
    as (code & lines & Hrun & Hcode & _).
  - reflexivity.
  - right. exists 0%Z. split; [reflexivity|lia].
  - exists code, lines. split; [exact Hrun|exact Hcode].
Defined.

(** [--count 0] and a missing count, on the library of the example *)
Example main_count_zero :
  main Ex.script_dir Ex.dotenv Ex.resolve
    (Arguments_ None (Some 0%Z) "playlist.m3u" None false) (World Ex.library [5; 3] [])
  = SysExit 2 (World Ex.library [5; 3] [Stderr "error: --count must be at least 1"]).
Proof. reflexivity. Qed.

Example main_count_missing :
  main Ex.script_dir Ex.dotenv Ex.resolve
    (Arguments_ None None "playlist.m3u" None false) (World Ex.library [5; 3] [])
  = SysExit 2
      (World Ex.library [5; 3]
         [Stderr "error: --count / -n is required when not using --list"]).
Proof. reflexivity. Qed.



(** [--count 10] with three songs in the library: the playlist has the
    three of them and the note says so. *)
Example main_clamped_example :
  ∃ w4,
    main Ex.script_dir Ex.dotenv Ex.resolve
      (Arguments_ None (Some 10%Z) "playlist.m3u" None false)
      (World Ex.library [5; 3; 8; 1] []) = Return () w4
    ∧ stdout_of (w_trace w4) =
        [ "Scanning folders..."; "  ROCK: 3 files found";
          "Note: Only 3 files available (requested 10).";
          nl +:+ "Selected 3 songs."; "Playlist written to playlist.m3u" ]
    ∧ FS.lookup (w_fs w4) "playlist.m3u" =
        Some (File ("#EXTM3U" +:+ nl +:+ "/music/rock/live/three.mp3" +:+ nl
                    +:+ "/music/rock/two.MP3" +:+ nl +:+ "/music/rock/one.mp3" +:+ nl)).
Proof. eexists. split; [vm_compute; reflexivity|]. split; vm_compute; reflexivity. Qed.


(** [--list --count 0]: the genres are listed, the count is not looked at,
    and the run returns. *)
Lemma main_count_checked_first_counterexample :
  args_count (Arguments_ None (Some 0%Z) "playlist.m3u" None true) = Some 0%Z
  ∧ (0 < 1)%Z
  ∧ main Ex.script_dir Ex.dotenv Ex.resolve
      (Arguments_ None (Some 0%Z) "playlist.m3u" None true) (World Ex.library [5; 3] [])
    = Return ()
        (World Ex.library [5; 3]
           [ Stdout "Configured genres:";
             Stdout "  JAZZ: /app/music/jazz [NOT FOUND]";
             Stdout "  ROCK: /music/rock [OK]" ])
  ∧ exit_status
      (main Ex.script_dir Ex.dotenv Ex.resolve
         (Arguments_ None (Some 0%Z) "playlist.m3u" None true) (World Ex.library [5; 3] []))
    = Some 0%Z.
Proof. split_and!; reflexivity. Qed.

(** * Further properties of the script *)

(** ** More on the song collector *)

Lemma collect_songs_selected (genres : gmap string path) (req : list string) (w : world) :
  req ≠ [] →
  collect_songs genres (Some req) w =
    (let selected : gset string := list_to_set (Str.upper <$> req) in
     if decide (selected ∖ dom genres = ∅)
     then collect_loop genres (sorted (elements selected)) [] w
     else
       SysExit 1
         (World (w_fs w) (w_rng w)
            (w_trace w ++
               [ Stderr ("Error: Unknown genre(s): "
                         +:+ Str.join ", " (sorted (elements (selected ∖ dom genres))));
                 Stderr ("Available: " +:+ Str.join ", " (sorted (elements (dom genres)))) ]))).
Proof.
  intros Hne. destruct req as [|r req]; [done|]. unfold collect_songs. cbv zeta.
  destruct (decide (_ = ∅)); [done|].
  unfold bind, eprint, emit, sys_exit. simpl. by rewrite <- app_assoc.
Qed.

(** X1. The collector looks at a request only through the set of its names
    in upper case: two requests that name the same genres, in whatever
    spelling, order or number of repetitions, have the same outcome, be it
    the collection and the lines printed or the refusal. *)
Theorem collect_songs_same_names (genres : gmap string path)
    (req req' : list string) (w : world) :
  req ≠ [] → req' ≠ [] →
  (∀ x, x ∈ Str.upper <$> req ↔ x ∈ Str.upper <$> req') →
  collect_songs genres (Some req) w = collect_songs genres (Some req') w.
Proof.
  intros Hne Hne' Hsame.
  rewrite !collect_songs_selected by done. cbv zeta.
  assert (list_to_set (C := gset string) (Str.upper <$> req) = list_to_set (Str.upper <$> req'))
    as ->; [|done].
  apply set_eq. intros x. rewrite !elem_of_list_to_set. apply Hsame.
Qed.

Lemma collect_songs_same_names_witness :
  collect_songs Ex.registry (Some ["rock"; "Jazz"; "ROCK"]) (World Ex.library [] [])
  = collect_songs Ex.registry (Some ["JAZZ"; "rock"]) (World Ex.library [] []).
Proof.
  apply collect_songs_same_names; [done|done|].
  intros x. change (x ∈ ["ROCK"; "JAZZ"; "ROCK"] ↔ x ∈ ["JAZZ"; "ROCK"]).
  rewrite !elem_of_cons, !elem_of_nil. tauto.
Defined.

(** X2. With a registry whose keys are in upper case, as the load makes
    them, leaving the genres out is the same as asking for every key of
    the registry. *)
Theorem collect_songs_default_is_all (genres : gmap string path) (w : world) :
  (∀ name, is_Some (genres !! name) → Str.upper name = name) →
  collect_songs genres None w = collect_songs genres (Some (elements (dom genres))) w.
Proof.
  intros Hupper.
  destruct (elements (dom genres)) as [|r req] eqn:Hkeys; [done|].
  rewrite collect_songs_selected by done. cbv zeta. rewrite <- Hkeys.
  assert (Str.upper <$> elements (dom genres) = elements (dom genres)) as ->.
  { rewrite <- (list_fmap_id (elements (dom genres))) at 2.
    apply list_fmap_ext. intros i name Hname. simpl.
    apply Hupper, elem_of_dom, elem_of_elements. by eapply list_elem_of_lookup_2. }
  rewrite list_to_set_elements_L.
  rewrite decide_True by set_solver. done.
Qed.

Lemma collect_songs_default_is_all_witness :
  collect_songs Ex.registry None (World Ex.library [] [])
  = collect_songs Ex.registry (Some (elements (dom Ex.registry))) (World Ex.library [] []).
Proof.
  apply collect_songs_default_is_all.
  intros name [folder Hname].
  assert (name = "ROCK" ∨ name = "JAZZ") as [-> | ->]; [|reflexivity|reflexivity].
  unfold Ex.registry in Hname.
  destruct (decide (name = "ROCK")) as [|Hrock]; [by left|].
  rewrite lookup_insert_ne in Hname by done.
  destruct (decide (name = "JAZZ")) as [|Hjazz]; [by right|].
  rewrite lookup_insert_ne in Hname by done. by rewrite lookup_empty in Hname.
Defined.

Lemma rglob_below fs folder f :
  f ∈ FS.rglob fs folder →
  FS.is_dir fs folder = true ∧ String.prefix (folder +:+ "/") f = true ∧ FS.exists_ fs f = true.
Proof.
  unfold FS.rglob. destruct (FS.is_dir fs folder); [|by intros ?%elem_of_nil].
  intros [Hin Hprefix]%list_elem_of_In%filter_In. split_and!; [done|done|].
  by apply exists_elem_of, list_elem_of_In.
Qed.

Lemma collected_sound fs (genres : gmap string path) (names : list string) s :
  s ∈ concat (genre_songs fs genres <$> names) →
  FS.is_file fs s = true ∧ is_audio s = true
  ∧ ∃ name folder, genres !! name = Some folder ∧ String.prefix (folder +:+ "/") s = true.
Proof.
  intros (songs & Hsongs & Hs)%list_elem_of_In%in_concat.
  apply list_elem_of_In, list_elem_of_fmap in Hsongs as (name & -> & _).
  unfold genre_songs in Hs. destruct (genres !! name) as [folder|] eqn:Hname; [|done].
  destruct (FS.exists_ fs folder); [|done].
  apply filter_In in Hs as [Hs [Hfile Haudio]%andb_true_iff].
  split_and!; [done|done|]. exists name, folder. split; [done|].
  by apply list_elem_of_In, rglob_below in Hs as (_ & ? & _).
Qed.

(** X3. The collector either returns or leaves with [sys.exit(1)]; it
    never raises (the lookup of a folder by its name cannot miss, the names
    having been checked) and it never runs out of steps.  It leaves the
    file system and the generator as they were.  What it returns are
    regular files with an audio suffix, each below the folder of a genre of
    the registry; when it exits, it has added two lines on the error stream
    and nothing else, so no folder was scanned. *)
Theorem collect_songs_outcomes (genres : gmap string path)
    (requested : option (list string)) (w : world) :
  match collect_songs genres requested w with
  | Return songs w' =>
      w_fs w' = w_fs w ∧ w_rng w' = w_rng w
      ∧ ∀ s, s ∈ songs →
          FS.is_file (w_fs w) s = true ∧ is_audio s = true
          ∧ ∃ name folder,
              genres !! name = Some folder ∧ String.prefix (folder +:+ "/") s = true
  | SysExit code w' =>
      code = 1%Z ∧ w_fs w' = w_fs w ∧ w_rng w' = w_rng w
      ∧ ∃ line1 line2, w_trace w' = w_trace w ++ [Stderr line1; Stderr line2]
  | Raise _ _ | OutOfFuel _ => False
  end.
Proof.
  destruct (decide (selected_genres genres requested ⊆ dom genres)) as [Hsub|Hsub].
  - rewrite collect_songs_known by done. rewrite collect_loop_spec; cycle 1.
    { intros name Hname. apply elem_of_dom, Hsub. by apply sorted_elements. }
    cbn [w_fs w_rng app]. split_and!; [done|done|].
    intros s Hs. by apply (collected_sound _ _ _ _ Hs).
  - destruct requested as [[|r req]|]; [by destruct Hsub|clear Hsub|by destruct Hsub].
    rewrite collect_songs_selected by done. cbv zeta.
    destruct (decide (_ = ∅)) as [Hnone|Hsome].
    + rewrite collect_loop_spec; cycle 1.
      { intros name Hname%sorted_elements. apply elem_of_dom. set_solver. }
      cbn [w_fs w_rng app]. split_and!; [done|done|].
      intros s Hs. by apply (collected_sound _ _ _ _ Hs).
    + split_and!; [done|done|done|]. by eexists _, _.
Qed.

(** ** The scan and the listing *)

Lemma prefix_trans a : ∀ b c f,
  String.prefix a b = true → String.prefix (b +:+ c) f = true → String.prefix a f = true.
Proof.
  induction a as [|x a IH]; intros b c f Hab Hbf; [by destruct f|].
  destruct b as [|y b]; [done|]. simpl in Hab.
  destruct (ascii_dec x y) as [->|]; [|done].
  rewrite string_app_cons in Hbf. destruct f as [|z f]; [done|]. simpl in *.
  destruct (ascii_dec y z) as [->|]; [|done]. by apply (IH b c f).
Qed.

Lemma filter_sublist {A} (p q : A → bool) (l : list A) :
  (∀ x, p x = true → q x = true) → List.filter p l `sublist_of` List.filter q l.
Proof.
  intros Hpq. induction l as [|x l IH]; simpl; [done|].
  destruct (p x) eqn:Hp.
  - rewrite (Hpq x Hp). by apply sublist_skip.
  - destruct (q x); [by apply sublist_cons|done].
Qed.

Lemma filter_filter_and {A} (p q : A → bool) (l : list A) :
  List.filter p (List.filter q l) = List.filter (λ x, q x && p x) l.
Proof.
  induction l as [|x l IH]; simpl; [done|].
  destruct (q x); simpl; [|done]. destruct (p x); by rewrite IH.
Qed.

(** X4. The scan of a folder always returns, leaves the world alone but
    for the mark of the traversal, and finds nothing below a path that is
    not a directory.  It is recursive and keeps the order of the
    traversal: what the scan of a sub-folder finds is a sub-list of what
    the scan of the folder finds. *)
Theorem scan_audio_files_recursive (folder sub : path) (w : world) :
  FS.is_dir (w_fs w) folder = true →
  String.prefix (folder +:+ "/") sub = true →
  scan_audio_files sub w =
    Return (scanned (w_fs w) sub) (World (w_fs w) (w_rng w) (w_trace w ++ [Rglob sub]))
  ∧ scan_audio_files folder w =
      Return (scanned (w_fs w) folder) (World (w_fs w) (w_rng w) (w_trace w ++ [Rglob folder]))
  ∧ scanned (w_fs w) sub `sublist_of` scanned (w_fs w) folder
  ∧ (FS.is_dir (w_fs w) sub = false → scanned (w_fs w) sub = []).
Proof.
  intros Hdir Hsub. split_and!; [done|done| |].
  - unfold scanned, FS.rglob. rewrite Hdir.
    destruct (FS.is_dir (w_fs w) sub); [|apply sublist_nil_l].
    rewrite !filter_filter_and. apply filter_sublist.
    intros f [Hbelow Hf]%andb_true_iff. rewrite Hf, andb_true_r.
    by apply (prefix_trans _ sub "/" f).
  - unfold scanned, FS.rglob. by intros ->.
Qed.

Lemma scan_audio_files_recursive_witness :
  scanned Ex.library "/music/rock/live" = ["/music/rock/live/three.mp3"]
  ∧ scanned Ex.library "/music/rock/live" `sublist_of` scanned Ex.library "/music".
Proof.
  split; [reflexivity|].
  by destruct (scan_audio_files_recursive "/music" "/music/rock/live" (World Ex.library [] []))
    as (_ & _ & Hsub & _).
Defined.

Lemma for_each_genre_line (items : list (string * path)) : ∀ w,
  for_each items (λ '(name, folder),
    fs <- get_fs ;;
    let exists_ := if FS.exists_ fs folder then "OK" else "NOT FOUND" in
    print ("  " +:+ name +:+ ": " +:+ folder +:+ " [" +:+ exists_ +:+ "]")) w
  = Return () (World (w_fs w) (w_rng w)
                 (w_trace w ++ (Stdout ∘ genre_line (w_fs w) <$> items))).
Proof.
  induction items as [|[name folder] items IH]; intros w.
  { simpl. rewrite app_nil_r. by destruct w. }
  cbn [for_each]. unfold bind at 1. unfold bind at 1, get_fs, print, emit.
  rewrite IH. cbn [w_fs w_rng w_trace fmap list_fmap]. by rewrite <- app_assoc.
Qed.

Lemma sorted_items_spec (genres : gmap string path) :
  Sorted (λ a b : string * path, String.le a.1 b.1) (sorted_items genres)
  ∧ sorted_items genres ≡ₚ map_to_list genres.
Proof.
  split; [|apply merge_sort_Permutation].
  apply Sorted_merge_sort. intros a b. apply (total String.le).
Qed.



(** ** More on the sampler and on the main program *)

Lemma select_songs_shape (songs : list path) (requested : Z) (w : world) :
  match select_songs songs requested w with
  | Return selected w' =>
      length selected = Z.to_nat (Z.min requested (Z.of_nat (length songs)))
      ∧ (∀ s, s ∈ selected → s ∈ songs)
      ∧ w_fs w' = w_fs w
      ∧ w_trace w' =
          w_trace w
            ++ (if (Z.of_nat (length songs) <? requested)%Z
                then [Stdout (clamp_note (Z.of_nat (length songs)) requested)] else [])
            ++ [Stdout (nl +:+ "Selected "
                        +:+ str_int (Z.min requested (Z.of_nat (length songs))) +:+ " songs.")]
  | OutOfFuel _ => True
  | SysExit _ _ | Raise _ _ => False
  end.
Proof.
  unfold select_songs. cbv zeta.
  set (count := Z.min requested (Z.of_nat (length songs))).
  assert ((count <? requested)%Z = (Z.of_nat (length songs) <? requested)%Z) as Hclamp.
  { subst count. destruct (Z.ltb_spec (Z.of_nat (length songs)) requested).
    - apply Z.ltb_lt. lia.
    - apply Z.ltb_ge. lia. }
  rewrite Hclamp.
  assert (∀ w0, w_fs w0 = w_fs w →
    match (selected <- random_sample songs (Z.to_nat count) ;;
           print (nl +:+ "Selected " +:+ str_int count +:+ " songs.") ;;; ret selected) w0 with
    | Return selected w' =>
        length selected = Z.to_nat count ∧ (∀ s, s ∈ selected → s ∈ songs)
        ∧ w_fs w' = w_fs w
        ∧ w_trace w' = w_trace w0
            ++ [Stdout (nl +:+ "Selected " +:+ str_int count +:+ " songs.")]
    | OutOfFuel _ => True
    | SysExit _ _ | Raise _ _ => False
    end) as Hsample.
  { intros w0 Hfs. unfold bind at 1.
    pose proof (random_sample_spec songs (Z.to_nat count) w0) as Hspec.
    destruct (random_sample songs (Z.to_nat count) w0) as [selected w'| | |];
      try (apply Hspec; subst count; lia).
    destruct Hspec as (Hfs' & Htrace & Hlen & positions & _ & Hdrawn); [subst count; lia|].
    unfold bind, print, emit, ret. cbn [w_fs w_trace].
    split_and!; [done| |congruence|by rewrite Htrace].
    intros s. by apply drawn_at_elem_of with positions. }
  destruct (Z.of_nat (length songs) <? requested)%Z.
  - unfold bind at 1, print at 1, emit.
    specialize (Hsample (World (w_fs w) (w_rng w)
                           (w_trace w ++ [Stdout (clamp_note count requested)])) eq_refl).
    destruct (bind _ _ _) as [selected w'| | |]; try done.
    destruct Hsample as (? & ? & ? & ->). split_and!; try done.
    cbn [w_trace]. rewrite <- !app_assoc. subst count.
    apply Z.ltb_lt in Hclamp. rewrite Z.min_r by lia. done.
  - unfold bind at 1, ret at 1. specialize (Hsample w eq_refl).
    destruct (bind _ _ _) as [selected w'| | |]; done.
Qed.

Lemma random_sample_extend {A} (population : list A) (k : nat) (w : world) :
  (k ≤ length population)%nat →
  ∃ g result w',
    random_sample population k (with_rng w (w_rng w ++ g)) = Return result w'.
Proof.
  intros Hk. unfold random_sample.
  destruct (Nat.ltb_spec (length population) k); [lia|].
  destruct (length population <=? setsize k)%nat.
  - exists (seq 0 k).
    destruct (sample_pool_spec k (length population) population
                (with_rng w (w_rng w ++ seq 0 k)))
      as (result & -> & _); [lia|simpl; rewrite length_app, length_seq; lia|].
    by eexists _, _.
  - apply sample_set_extend. rewrite size_empty. lia.
Qed.

(** X6. For a count that is not negative the sampler neither exits nor
    raises: [random.sample] is never asked for more than there is.  With
    numbers enough from the generator it returns.  The selection has as
    many songs as the smaller of the count and the size of the collection,
    all of them songs of the collection; the note about the count is
    printed when, and only when, the count is above the size of the
    collection, and the line that follows reports the clamped count.
    ([main] comes here with a count from 1 on; a negative count would make
    [random.sample] raise [ValueError], which the sample of the embedding,
    taking a natural number, does not show.) *)
Theorem select_songs_clamps (songs : list path) (requested : Z) (w : world) :
  (0 ≤ requested)%Z →
  match select_songs songs requested w with
  | Return selected w' =>
      length selected = Z.to_nat (Z.min requested (Z.of_nat (length songs)))
      ∧ (∀ s, s ∈ selected → s ∈ songs)
      ∧ w_fs w' = w_fs w
      ∧ w_trace w' =
          w_trace w
            ++ (if (Z.of_nat (length songs) <? requested)%Z
                then [Stdout (clamp_note (Z.of_nat (length songs)) requested)] else [])
            ++ [Stdout (nl +:+ "Selected "
                        +:+ str_int (Z.min requested (Z.of_nat (length songs))) +:+ " songs.")]
  | OutOfFuel _ => True
  | SysExit _ _ | Raise _ _ => False
  end
  ∧ ∃ g selected w',
      select_songs songs requested (with_rng w (w_rng w ++ g)) = Return selected w'.
Proof.
  intros _. split; [apply select_songs_shape|].
  unfold select_songs. cbv zeta.
  set (count := Z.min requested (Z.of_nat (length songs))).
  assert (Z.to_nat count ≤ length songs)%nat as Hk by (subst count; lia).
  destruct (count <? requested)%Z.
  - destruct (random_sample_extend songs (Z.to_nat count)
                (World (w_fs w) (w_rng w)
                   (w_trace w ++ [Stdout (clamp_note count requested)])) Hk)
      as (g & selected & w' & Hrun).
    exists g. unfold bind at 1, print at 1, emit. unfold bind at 1.
    unfold with_rng in *. cbn [w_fs w_rng w_trace] in *. rewrite Hrun.
    by eexists _, _.
  - destruct (random_sample_extend songs (Z.to_nat count) w Hk)
      as (g & selected & w' & Hrun).
    exists g. unfold bind at 1, ret at 1. unfold bind at 1. rewrite Hrun.
    by eexists _, _.
Qed.

Lemma select_songs_clamps_witness :
  (0 ≤ 5)%Z
  ∧ ∃ g selected w',
      select_songs ["/m/a.mp3"; "/m/b.mp3"] 5 (with_rng (World [] [] []) ([] ++ g))
        = Return selected w'.
Proof.
  assert (0 ≤ 5)%Z as Hcount by lia.
  split; [exact Hcount|].
  exact (proj2 (select_songs_clamps ["/m/a.mp3"; "/m/b.mp3"] 5 (World [] [] []) Hcount)).
Defined.

Lemma collect_songs_shape (genres : gmap string path)
    (requested : option (list string)) (w : world) :
  (∃ songs t,
     collect_songs genres requested w =
       Return songs (World (w_fs w) (w_rng w) (w_trace w ++ t))
     ∧ Forall (λ s, FS.is_file (w_fs w) s = true) songs)
  ∨ (∃ line1 line2,
       collect_songs genres requested w =
         SysExit 1 (World (w_fs w) (w_rng w) (w_trace w ++ [Stderr line1; Stderr line2]))).
Proof.
  assert (∀ names, (∀ name, name ∈ names → is_Some (genres !! name)) →
            ∃ songs t,
              collect_loop genres names [] w =
                Return songs (World (w_fs w) (w_rng w) (w_trace w ++ t))
              ∧ Forall (λ s, FS.is_file (w_fs w) s = true) songs) as Hloop.
  { intros names Hknown. eexists _, _. split; [by apply collect_loop_spec|].
    cbn [app]. apply Forall_concat, Forall_fmap, Forall_forall. intros name _.
    apply genre_songs_files. }
  destruct (decide (selected_genres genres requested ⊆ dom genres)) as [Hsub|Hsub].
  - left. rewrite collect_songs_known by done. apply Hloop.
    intros name Hname. apply elem_of_dom, Hsub. by apply sorted_elements.
  - destruct requested as [[|r req]|]; [by destruct Hsub|clear Hsub|by destruct Hsub].
    rewrite collect_songs_selected by done. cbv zeta.
    destruct (decide (_ = ∅)) as [Hnone|Hsome].
    + left. apply Hloop. intros name Hname%sorted_elements. apply elem_of_dom. set_solver.
    + right. by eexists _, _.
Qed.

(** The three ways of a run: an early exit that has changed nothing, the
    listing, or the sampler and the playlist on a collection that is not
    empty. *)
Lemma main_structure (SCRIPT_DIR : path)
    (dotenv_values : filesystem → path → list (string * option string))
    (resolve : filesystem → path → path) (args : arguments) (w : world) :
  (∃ code t,
     main SCRIPT_DIR dotenv_values resolve args w =
       SysExit code (World (w_fs w) (w_rng w) (w_trace w ++ t))
     ∧ (code = 1 ∨ code = 2)%Z)
  ∨ (args_list args = true
     ∧ ∃ t, main SCRIPT_DIR dotenv_values resolve args w =
              Return () (World (w_fs w) (w_rng w) (w_trace w ++ t)))
  ∨ (∃ songs count t,
       args_list args = false ∧ args_count args = Some count ∧ (1 ≤ count)%Z
       ∧ songs ≠ []
       ∧ Forall (λ s, FS.is_file (w_fs w) s = true) songs
       ∧ main SCRIPT_DIR dotenv_values resolve args w =
           (selected <- select_songs songs count ;; emit_playlist args selected)
             (World (w_fs w) (w_rng w) (w_trace w ++ t))).
Proof.
  pose proof (load_genres_run SCRIPT_DIR dotenv_values resolve (w_fs w) w eq_refl) as Hload.
  cbv zeta in Hload. unfold main.
  destruct (FS.exists_ (w_fs w) _);
    [|left; eexists 1%Z, _; split; [unfold bind; rewrite Hload; reflexivity|by left]].
  destruct (decide (_ = ∅)) as [Hempty|Hfull];
    [left; eexists 1%Z, _; split; [unfold bind; rewrite Hload; reflexivity|by left]|].
  rewrite (bind_Return _ _ _ _ _ Hload). clear Hload.
  destruct (args_list args) eqn:Hlist.
  { right. left. split; [done|]. unfold list_genres.
    rewrite (bind_Return _ _ _ _ _ (print_run _ _)). rewrite for_each_genre_line.
    cbn [w_fs w_rng w_trace]. eexists. by rewrite <- app_assoc. }
  destruct (args_count args) as [count|] eqn:Hcount;
    [|left; eexists 2%Z, _; split; [reflexivity|by right]].
  destruct (Z.ltb_spec count 1) as [Hlow|Hok];
    [left; eexists 2%Z, _; split; [reflexivity|by right]|].
  rewrite (bind_Return _ _ _ _ _ (print_run _ _)).
  destruct (collect_songs_shape (foldl (add_genre SCRIPT_DIR resolve (w_fs w)) ∅
                                   (dotenv_values (w_fs w) (Path.join SCRIPT_DIR ".env")))
              (args_genres args)
              (World (w_fs w) (w_rng w) (w_trace w ++ [Stdout "Scanning folders..."])))
    as [(songs & t & Hrun & Hfiles)|(line1 & line2 & Hrun)].
  - rewrite (bind_Return _ _ _ _ _ Hrun). cbn [w_fs w_rng w_trace] in *.
    destruct songs as [|song songs].
    + left. eexists 1%Z, _. split; [|by left].
      unfold bind, eprint, emit, sys_exit. cbn [w_fs w_rng w_trace].
      by rewrite <- !app_assoc.
    + right. right. exists (song :: songs), count, ([Stdout "Scanning folders..."] ++ t).
      split_and!; [done|done|done|done|done|]. by rewrite app_assoc.
  - left. eexists 1%Z, _. split; [|by left].
    unfold bind at 1. rewrite Hrun. cbn [w_fs w_rng w_trace]. by rewrite <- app_assoc.
Qed.

Lemma emit_playlist_raise (args : arguments) (selected : list path) (w w' : world) exn :
  Forall (λ s, FS.is_file (w_fs w) s = true) selected →
  emit_playlist args selected w = Raise exn w' →
  can_emit args (w_fs w) = false ∧ (exn = "FileExistsError" ∨ exn = "IsADirectoryError").
Proof.
  intros Hfiles.
  assert (∀ w0 line,
            w_fs w0 = w_fs w →
            (write_m3u (args_output args) selected ;;; print line) w0 = Raise exn w' →
            negb (FS.is_dir (w_fs w) (args_output args)) = false
            ∧ (exn = "FileExistsError" ∨ exn = "IsADirectoryError")) as Hplain.
  { intros w0 line Hfs. unfold bind at 1, write_m3u, bind, get_fs, emit. cbn [w_fs].
    rewrite Hfs. destruct (FS.is_dir (w_fs w) (args_output args)); [|done].
    intros [= <- _]. split; [done|by right]. }
  unfold emit_playlist, can_emit.
  destruct (args_copy_to args) as [[|c target_dir]|]; [by apply Hplain| |by apply Hplain].
  rewrite (bind_Return _ _ _ _ _ (print_run _ _)). unfold copy_to_directory.
  destruct (FS.mkdir_p (w_fs w) (String c target_dir)) as [fs'|] eqn:Hmk; cycle 1.
  { unfold bind at 1, mkdir, bind, get_fs, emit. cbn [w_fs]. rewrite Hmk.
    intros [= <- _]. split; [done|by left]. }
  rewrite (bind_Return _ _ _ _ _
             (mkdir_run _ (World (w_fs w) (w_rng w) (w_trace w ++ [Stdout _])) _ Hmk)).
  destruct (mkdirs_app _ _ _ Hmk) as [dirs ->].
  match goal with |- context [bind (copy_loop ?d ?n ?i ?l ?a) _ ?w0] =>
    destruct (copy_loop_spec d n l i a w0) as (names & w2 & Hloop & _ & _ & Hdirs & _) end.
  { eapply Forall_impl; [exact Hfiles|]. intros s Hs. by apply is_file_app. }
  rewrite (bind_Return _ _ _ _ _ Hloop). cbn [app w_fs] in *.
  unfold bind at 1, write_m3u, bind at 1, get_fs. unfold bind at 1, emit. cbn [w_fs].
  rewrite Hdirs. destruct (FS.is_dir (w_fs w ++ dirs) _); [|done].
  intros [= <- _]. split; [done|by right].
Qed.





Lemma concat_all_nil {A} (ls : list (list A)) : Forall (λ l, l = []) ls → concat ls = [].
Proof. induction 1 as [|l ls -> _ IH]; [done|]. simpl. exact IH. Qed.

(** X9. When none of the selected genres has an audio file, its folder
    missing or holding none, the run ends with status 1 after the message
    that no audio file was found, whatever the count from 1 on; nothing is
    sampled and nothing is written. *)
Theorem main_no_audio_found (SCRIPT_DIR : path)
    (dotenv_values : filesystem → path → list (string * option string))
    (resolve : filesystem → path → path) (args : arguments) (w w1 : world)
    (genres : gmap string path) (count : Z) :
  args_list args = false →
  args_count args = Some count → (1 ≤ count)%Z →
  load_genres SCRIPT_DIR dotenv_values resolve w = Return genres w1 →
  selected_genres genres (args_genres args) ⊆ dom genres →
  (∀ name, name ∈ selected_genres genres (args_genres args) →
     genre_songs (w_fs w) genres name = []) →
  ∃ t,
    main SCRIPT_DIR dotenv_values resolve args w =
      SysExit 1
        (World (w_fs w) (w_rng w)
           (w_trace w ++ t
              ++ [Stderr "Error: No audio files found in the selected genre folders."])).
Proof.
  intros Hlist Hcount Hpos Hload Hsub Hnone.
  pose proof (load_genres_same_world _ _ _ _ _ _ Hload) as ->.
  set (names := sorted (elements (selected_genres genres (args_genres args)))).
  assert (∀ name, name ∈ names → name ∈ selected_genres genres (args_genres args)) as Hnames.
  { intros name. apply sorted_elements. }
  set (w0 := World (w_fs w) (w_rng w) (w_trace w ++ [Stdout "Scanning folders..."])).
  assert (collect_songs genres (args_genres args) w0 =
            Return []
              (World (w_fs w) (w_rng w)
                 (w_trace w0 ++ concat (genre_events (w_fs w) genres <$> names)))) as Hcollect.
  { rewrite collect_songs_known by done. fold names. rewrite collect_loop_spec; cycle 1.
    { intros name Hname. apply elem_of_dom, Hsub, Hnames, Hname. }
    cbn [w0 w_fs w_rng app]. rewrite concat_all_nil; [done|].
    apply Forall_fmap, Forall_forall. intros name Hname. simpl. by apply Hnone, Hnames. }
  exists (Stdout "Scanning folders..." :: concat (genre_events (w_fs w) genres <$> names)).
  unfold main. rewrite (bind_Return _ _ _ _ _ Hload). rewrite Hlist, Hcount.
  assert ((count <? 1)%Z = false) as -> by (apply Z.ltb_ge; lia).
  rewrite (bind_Return _ _ _ _ _ (print_run _ _)). fold w0.
  rewrite (bind_Return _ _ _ _ _ Hcollect).
  unfold bind, eprint, emit, sys_exit. cbn [w0 w_fs w_rng w_trace].
  by rewrite <- !app_assoc.
Qed.

Lemma main_no_audio_found_witness :
  ∃ t,
    main Ex.script_dir Ex.dotenv Ex.resolve
      (Arguments_ (Some ["jazz"]) (Some 4%Z) "playlist.m3u" (Some "/usb") false)
      (World Ex.library [1; 2] [])
    = SysExit 1
        (World Ex.library [1; 2]
           (t ++ [Stderr "Error: No audio files found in the selected genre folders."])).
Proof.
  edestruct (main_no_audio_found Ex.script_dir Ex.dotenv Ex.resolve
               (Arguments_ (Some ["jazz"]) (Some 4%Z) "playlist.m3u" (Some "/usb") false)
               (World Ex.library [1; 2] [])) as [t Hrun].
  - reflexivity.
  - reflexivity.
  - lia.
  - reflexivity.
  - intros name Hname. apply elem_of_dom.
    apply elem_of_list_to_set, list_elem_of_singleton in Hname as ->. by eexists.
  - intros name Hname.
    apply elem_of_list_to_set, list_elem_of_singleton in Hname as ->. reflexivity.
  - exists t. exact Hrun.
Defined.

Lemma emit_playlist_plain (args : arguments) (selected : list path) (w w' : world) :
  args_copy_to args = None ∨ args_copy_to args = Some "" →
  emit_playlist args selected w = Return () w' →
  w' = World (FS.put (w_fs w) (args_output args) (File (m3u_text selected))) (w_rng w)
         (w_trace w ++ [ OpenW (args_output args);
                         Stdout ("Playlist written to " +:+ args_output args) ]).
Proof.
  intros Hplain. unfold emit_playlist.
  assert ((write_m3u (args_output args) selected ;;;
           print ("Playlist written to " +:+ args_output args)) w = Return () w' →
          w' = World (FS.put (w_fs w) (args_output args) (File (m3u_text selected))) (w_rng w)
                 (w_trace w ++ [ OpenW (args_output args);
                                 Stdout ("Playlist written to " +:+ args_output args) ]))
    as Hwrite.
  { unfold bind at 1, write_m3u, bind, get_fs, emit. cbn [w_fs].
    destruct (FS.is_dir (w_fs w) (args_output args)); [done|].
    unfold set_fs, print, emit. cbn [w_fs w_rng w_trace]. rewrite <- app_assoc.
    by intros [= <-]. }
  by destruct Hplain as [-> | ->].
Qed.

(** X10. A run without [--copy-to] that returns has written the playlist
    and changed no other path: the file at the output path holds the
    header and the selected songs, from one song up to as many as were
    asked for, each of them a regular file of the disk, and every other
    path has what it had. *)
Theorem main_plain_run (SCRIPT_DIR : path)
    (dotenv_values : filesystem → path → list (string * option string))
    (resolve : filesystem → path → path) (args : arguments) (w w' : world) :
  args_list args = false →
  args_copy_to args = None ∨ args_copy_to args = Some "" →
  main SCRIPT_DIR dotenv_values resolve args w = Return () w' →
  ∃ (count : Z) (selected : list path),
    args_count args = Some count
    ∧ (1 ≤ Z.of_nat (length selected) ≤ count)%Z
    ∧ (∀ s, s ∈ selected → FS.is_file (w_fs w) s = true)
    ∧ FS.lookup (w_fs w') (args_output args) = Some (File (m3u_text selected))
    ∧ ∀ q, q ≠ args_output args → FS.lookup (w_fs w') q = FS.lookup (w_fs w) q.
Proof.
  intros Hlist Hplain Hreturn.
  destruct (main_structure SCRIPT_DIR dotenv_values resolve args w)
    as [(c & t & Hrun & Hc)|[(Hl & _)|(songs & count & t & _ & Hcount & Hpos & Hne & Hfiles & Hrun)]];
    [by rewrite Hrun in Hreturn|congruence|].
  rewrite Hrun in Hreturn. unfold bind in Hreturn.
  pose proof (select_songs_shape songs count (World (w_fs w) (w_rng w) (w_trace w ++ t)))
    as Hshape.
  destruct (select_songs songs count _) as [selected w3| | |]; try done.
  destruct Hshape as (Hlen & Hin & Hfs & _). cbn [w_fs] in Hfs.
  apply (emit_playlist_plain _ _ _ _ Hplain) in Hreturn as ->. cbn [w_fs]. rewrite Hfs.
  exists count, selected. split_and!.
  - done.
  - destruct songs; [done|]. simpl in Hlen. lia.
  - lia.
  - intros s Hs. rewrite Forall_forall in Hfiles. by apply Hfiles, Hin.
  - apply lookup_put_eq.
  - intros q Hq. by apply lookup_put_ne.
Qed.

Lemma main_plain_run_witness :
  ∃ w',
    main Ex.script_dir Ex.dotenv Ex.resolve
      (Arguments_ (Some ["Rock"]) (Some 2%Z) "/music/mix.m3u" (Some "") false)
      (World Ex.library [9; 4; 4] []) = Return () w'
    ∧ ∃ selected : list path,
        FS.lookup (w_fs w') "/music/mix.m3u" = Some (File (m3u_text selected))
        ∧ ∀ q, q ≠ "/music/mix.m3u" → FS.lookup (w_fs w') q = FS.lookup Ex.library q.
Proof.
  eexists. split; [vm_compute; reflexivity|].
  edestruct (main_plain_run Ex.script_dir Ex.dotenv Ex.resolve
               (Arguments_ (Some ["Rock"]) (Some 2%Z) "/music/mix.m3u" (Some "") false)
               (World Ex.library [9; 4; 4] []))
    as (count & selected & _ & _ & _ & Hfile & Hothers);
    [reflexivity|by right|vm_compute; reflexivity|].
  exists selected. split; [exact Hfile|exact Hothers].
Defined.

(** ** More on the portable copy *)

(** What the copy loop leaves on the disk *)
Lemma copy_loop_placed (d : path) (total : nat) (songs : list path) :
  ∀ (i : nat) (acc : list string) (w : world),
    Forall (λ s, FS.is_file (w_fs w) s = true) songs →
    ∃ names w',
      copy_loop d total i songs acc w = Return (acc ++ names) w'
      ∧ length names = length songs
      ∧ (∀ p, FS.exists_ (w_fs w) p = true → FS.lookup (w_fs w') p = FS.lookup (w_fs w) p)
      ∧ (∀ p, FS.is_dir (w_fs w') p = FS.is_dir (w_fs w) p)
      ∧ (∀ j s n, songs !! j = Some s → names !! j = Some n →
           FS.lookup (w_fs w') (Path.join d n) = FS.lookup (w_fs w) s)
      ∧ (∀ n, n ∈ names → FS.exists_ (w_fs w) (Path.join d n) = false)
      ∧ NoDup (Path.join d <$> names).
Proof.
  induction songs as [|song songs IH]; intros i acc w Hfiles.
  { exists [], w. simpl. rewrite app_nil_r.
    split_and!; [done|done|done|done|done| |constructor].
    by intros n ?%elem_of_nil. }
  pose proof Hfiles as Hall.
  apply Forall_cons in Hfiles as [Hsong Hfiles].
  destruct (unique_filename_returns d (Path.name song) w) as (r & Hrun & _ & Hfresh & _).
  destruct (is_file_lookup _ _ Hsong) as [data Hdata].
  set (w1 := World (w_fs w ++ [(Path.join d r, File data)]) (w_rng w)
               ((w_trace w ++ [Stdout (copy_progress i total song r)])
                  ++ [Copy2 song (Path.join d r)])).
  destruct (IH (S i) (acc ++ [r]) w1)
    as (names & w' & Hrest & Hlen & Hkeep & Hdirs & Hdata' & Hnew & Hnodup).
  { eapply Forall_impl; [exact Hfiles|]. intros s Hs. by apply is_file_app. }
  cbn [w1 w_fs] in Hkeep, Hdirs, Hdata', Hnew.
  assert (∀ p, FS.exists_ (w_fs w) p = true →
            FS.lookup (w_fs w ++ [(Path.join d r, File data)]) p = FS.lookup (w_fs w) p)
    as Hold.
  { intros p Hp. rewrite lookup_app. unfold FS.exists_ in Hp.
    by destruct (FS.lookup (w_fs w) p). }
  exists (r :: names), w'. split_and!.
  - cbn [copy_loop]. unfold bind at 1. rewrite Hrun.
    unfold bind at 1, print, emit. cbn [w_fs w_rng w_trace].
    unfold bind at 1. rewrite (copy2_new _ _ data); [|done|done].
    cbn [w_fs w_rng w_trace]. fold w1. rewrite Hrest. by rewrite <- app_assoc.
  - simpl. by rewrite Hlen.
  - intros p Hp. rewrite Hkeep; [by apply Hold|].
    rewrite exists_app, Hp. done.
  - intros p. rewrite Hdirs. apply is_dir_app_file.
  - intros [|j] s n Hs Hn; simpl in Hs, Hn.
    + injection Hs as <-. injection Hn as <-. rewrite Hkeep.
      * rewrite lookup_app. unfold FS.exists_ in Hfresh.
        destruct (FS.lookup (w_fs w) (Path.join d r)); [done|].
        simpl. by rewrite String.eqb_refl, Hdata.
      * rewrite exists_app. apply orb_true_iff. right. by apply exists_singleton.
    + rewrite (Hdata' j s n Hs Hn). apply Hold.
      rewrite Forall_forall in Hfiles.
      pose proof (Hfiles s (list_elem_of_lookup_2 _ _ _ Hs)) as Hfile.
      unfold FS.is_file in Hfile. unfold FS.exists_.
      by destruct (FS.lookup (w_fs w) s).
  - intros n [->|Hn]%elem_of_cons; [done|].
    apply Hnew in Hn. rewrite exists_app in Hn. by apply orb_false_iff in Hn as [? _].
  - rewrite fmap_cons. constructor; [|done].
    intros (n & Heq & Hn)%list_elem_of_fmap. apply Hnew in Hn.
    rewrite <- Heq, exists_app in Hn. apply orb_false_iff in Hn as [_ Hn].
    assert (FS.exists_ [(Path.join d r, File data)] (Path.join d r) = true)
      by (by apply exists_singleton). congruence.
Qed.



(** A playlist called like a song of the run takes the place of the copy
    of that song. *)
Example copy_to_directory_playlist_over_copy :
  ∃ w', copy_to_directory ["/music/rock/song.mp3"] "/stick" "song.mp3"
          (World Ex.usb [] []) = Return () w'
        ∧ FS.lookup (w_fs w') "/stick/song.mp3"
            = Some (File ("#EXTM3U" +:+ nl +:+ "song.mp3" +:+ nl)).
Proof. eexists. split; vm_compute; reflexivity. Qed.

(** ** More on the playlist writer *)

Lemma rfind_cons_None c a s :
  Str.rfind c (String a s) = None ↔ a ≠ c ∧ Str.rfind c s = None.
Proof.
  simpl. destruct (Str.rfind c s); [by split; [|intros [_ ?]]|].
  destruct (Ascii.eqb_spec a c); split; try done. by intros [? _].
Qed.

Lemma line_break_splits (a : string) : ∀ (a' r r' : string),
  one_line a → one_line a' →
  a +:+ nl +:+ r = a' +:+ nl +:+ r' → a = a' ∧ r = r'.
Proof.
  unfold one_line. induction a as [|x a IH]; intros [|y a'] r r' Ha Ha' Heq.
  - change (String nl_char r = String nl_char r') in Heq. by injection Heq as ->.
  - exfalso. apply rfind_cons_None in Ha' as [Hy _].
    change (String nl_char r = String y (a' +:+ nl +:+ r')) in Heq.
    injection Heq as Heq _. by destruct Hy.
  - exfalso. apply rfind_cons_None in Ha as [Hx _].
    change (String x (a +:+ nl +:+ r) = String nl_char r') in Heq.
    injection Heq as Heq _. by destruct Hx.
  - rewrite !string_app_cons in Heq. injection Heq as -> Heq.
    apply rfind_cons_None in Ha as [_ Ha]. apply rfind_cons_None in Ha' as [_ Ha'].
    destruct (IH a' r r' Ha Ha' Heq) as [-> ->]. done.
Qed.

Lemma m3u_lines_inj (entries : list string) : ∀ entries',
  Forall one_line entries → Forall one_line entries' →
  m3u_lines entries = m3u_lines entries' → entries = entries'.
Proof.
  induction entries as [|e entries IH]; intros [|e' entries'] He He' Heq; simpl in Heq.
  - done.
  - apply (f_equal String.length) in Heq. rewrite !string_app_length in Heq.
    simpl in Heq. lia.
  - apply (f_equal String.length) in Heq. rewrite !string_app_length in Heq.
    simpl in Heq. lia.
  - apply Forall_cons in He as [He Hes]. apply Forall_cons in He' as [He' Hes'].
    destruct (line_break_splits e e' _ _ He He' Heq) as [-> Hrest].
    f_equal. by apply IH.
Qed.

(** X12. Entries are written as they are, so the file tells the entries
    apart only as far as they have no line break of their own: two lists
    of entries without line breaks that give the same playlist text are the
    same list.  An entry with a line break in it gives the text of two
    entries. *)
Theorem m3u_text_injective (entries entries' : list string) :
  Forall one_line entries → Forall one_line entries' →
  (m3u_text entries = m3u_text entries' → entries = entries')
  ∧ m3u_text ["a" +:+ nl +:+ "b"] = m3u_text ["a"; "b"].
Proof.
  intros He He'. split; [|reflexivity].
  rewrite !m3u_text_lines. intros Heq.
  apply String.app_inj in Heq. apply String.app_inj in Heq.
  by apply m3u_lines_inj.
Qed.

Lemma m3u_text_injective_witness :
  Forall one_line ["/m/a.mp3"; "b c.flac"] ∧ Forall one_line ["/m/a.mp3"; "b c.flac"; ""]
  ∧ m3u_text ["/m/a.mp3"; "b c.flac"] ≠ m3u_text ["/m/a.mp3"; "b c.flac"; ""].
Proof.
  assert (Forall one_line ["/m/a.mp3"; "b c.flac"]) as H1 by (repeat constructor).
  assert (Forall one_line ["/m/a.mp3"; "b c.flac"; ""]) as H2 by (repeat constructor).
  split_and!; [exact H1|exact H2|].
  intros Heq. by apply (m3u_text_injective _ _ H1 H2) in Heq.
Defined.

(** ** More on the collision resolver *)

Lemma drop_0 (s : string) : Str.drop 0 s = s.
Proof. unfold Str.drop. by rewrite Nat.sub_0_r, substring_all. Qed.

Lemma drop_S i a s : Str.drop (S i) (String a s) = Str.drop i s.
Proof. reflexivity. Qed.

Lemma take_S i a s : Str.take (S i) (String a s) = String a (Str.take i s).
Proof. reflexivity. Qed.

Lemma take_drop (s : string) : ∀ i, Str.take i s +:+ Str.drop i s = s.
Proof.
  induction s as [|a s IH]; intros [|i]; try done.
  - by rewrite drop_0.
  - by rewrite take_S, drop_S, string_app_cons, IH.
Qed.

Lemma drop_length (s : string) : ∀ i,
  String.length (Str.drop i s) = (String.length s - i)%nat.
Proof.
  induction s as [|a s IH]; intros [|i]; try done.
  - by rewrite drop_0.
  - rewrite drop_S. apply IH.
Qed.

Lemma drop_app_length (a b : string) : Str.drop (String.length a) (a +:+ b) = b.
Proof.
  induction a as [|x a IH]; [apply drop_0|].
  rewrite string_app_cons. simpl String.length. by rewrite drop_S.
Qed.

Lemma rfind_app c (a b : string) :
  Str.rfind c (a +:+ b) =
    match Str.rfind c b with
    | Some j => Some (String.length a + j)%nat
    | None => Str.rfind c a
    end.
Proof.
  induction a as [|x a IH].
  { change ("" +:+ b) with b. by destruct (Str.rfind c b). }
  rewrite string_app_cons. simpl. rewrite IH.
  destruct (Str.rfind c b); [done|]. by destruct (Str.rfind c a).
Qed.

Lemma rfind_at c (s : string) : ∀ i,
  Str.rfind c s = Some i →
  (i < String.length s)%nat ∧ Str.rfind c (Str.drop i s) = Some 0%nat.
Proof.
  induction s as [|a s IH]; intros i; simpl; [done|].
  destruct (Str.rfind c s) as [j|] eqn:E.
  - intros [= <-]. destruct (IH j eq_refl) as [Hlt Hdrop].
    split; [lia|]. by rewrite drop_S.
  - destruct (Ascii.eqb a c) eqn:Hac; [|done]. intros [= <-].
    split; [lia|]. rewrite drop_0. simpl. by rewrite E, Hac.
Qed.

Lemma pretty_N_char_no_sep d : pretty_N_char d ≠ "/"%char.
Proof. unfold pretty_N_char. by repeat case_match. Qed.

Lemma pretty_N_go_no_sep x : ∀ s,
  Str.rfind "/" s = None → Str.rfind "/" (pretty_N_go x s) = None.
Proof.
  induction (N.lt_wf_0 x) as [x _ IH]. intros s Hs.
  destruct (decide (x = 0)%N) as [->|Hx]; [by rewrite pretty_N_go_0|].
  rewrite pretty_N_go_step by lia. apply IH; [apply N.div_lt; lia|].
  apply rfind_cons_None. split; [apply pretty_N_char_no_sep|done].
Qed.

Lemma str_nat_no_sep (k : nat) : Str.rfind "/" (str_nat k) = None.
Proof.
  unfold str_nat, pretty, pretty_nat, pretty, pretty_N.
  case_decide; [done|]. by apply pretty_N_go_no_sep.
Qed.

Lemma name_idemp (p : path) : Path.name (Path.name p) = Path.name p.
Proof.
  generalize (name_no_sep p). generalize (Path.name p) as n.
  intros n Hn. unfold Path.name. by rewrite Hn.
Qed.

(** A name with an extension, numbered: no separator comes in, and the
    extension stays. *)
Lemma numbered_suffix (n : string) (k : nat) :
  Str.rfind "/" n = None → Path.suffix n ≠ "" →
  Str.rfind "/" (numbered (Path.stem n) (Path.suffix n) k) = None
  ∧ Path.suffix (numbered (Path.stem n) (Path.suffix n) k) = Path.suffix n.
Proof.
  intros Hsep Hsuffix.
  assert (Path.name n = n) as Hname by (unfold Path.name; by rewrite Hsep).
  unfold Path.stem, Path.suffix in *. rewrite Hname in *.
  destruct (Str.rfind "." n) as [i|] eqn:Hdot; [|done].
  destruct ((0 <? i)%nat && (i <? String.length n - 1)%nat) eqn:Hi; [|done].
  apply andb_true_iff in Hi as [Hi0 Hi1]. apply Nat.ltb_lt in Hi0, Hi1.
  destruct (rfind_at _ _ _ Hdot) as [_ Hdrop].
  pose proof (take_drop n i) as Hsplit. pose proof (drop_length n i) as Hlen.
  assert (Str.rfind "/" (Str.take i n) = None ∧ Str.rfind "/" (Str.drop i n) = None)
    as [Hsep1 Hsep2].
  { rewrite <- Hsplit, rfind_app in Hsep.
    destruct (Str.rfind "/" (Str.drop i n)); [done|]. done. }
  set (pre := Str.take i n +:+ "_" +:+ str_nat k).
  assert (numbered (Str.take i n) (Str.drop i n) k = pre +:+ Str.drop i n) as Hnum.
  { unfold numbered, pre. by rewrite !string_app_assoc. }
  assert (Str.rfind "/" (pre +:+ Str.drop i n) = None) as Hnosep.
  { rewrite rfind_app, Hsep2. unfold pre. rewrite rfind_app.
    rewrite rfind_app, str_nat_no_sep. simpl. by rewrite Hsep1. }
  rewrite Hnum. split; [done|].
  assert (Path.name (pre +:+ Str.drop i n) = pre +:+ Str.drop i n) as ->
    by (unfold Path.name; by rewrite Hnosep).
  rewrite rfind_app, Hdrop, Nat.add_0_r.
  assert (1 ≤ String.length pre)%nat as Hpre.
  { unfold pre. rewrite !string_app_length. simpl. lia. }
  assert ((0 <? String.length pre)%nat = true) as -> by (apply Nat.ltb_lt; lia).
  assert ((String.length pre <? String.length (pre +:+ Str.drop i n) - 1)%nat = true) as ->.
  { apply Nat.ltb_lt. rewrite string_app_length, Hlen. lia. }
  simpl. apply drop_app_length.
Qed.

(** X13. The name under which a song is copied is a bare file name, with
    no directory in it, and it has the extension of the song when the song
    has one: a numbered name of an audio file is the name of an audio file
    again.  (A name that ends in a dot has no extension for [pathlib], and
    its numbered names get one; songs are never such names.) *)
Theorem unique_filename_keeps_suffix (target_dir song : path) (w : world) :
  Path.suffix song ≠ "" →
  ∃ r : string,
    unique_filename target_dir (Path.name song) w = Return r w
    ∧ Str.rfind "/" r = None
    ∧ Path.suffix r = Path.suffix song
    ∧ (is_audio song = true → is_audio r = true).
Proof.
  intros Hsuffix.
  assert (Path.suffix (Path.name song) = Path.suffix song) as Hsame.
  { unfold Path.suffix. by rewrite name_idemp. }
  destruct (unique_filename_returns target_dir (Path.name song) w) as (r & Hrun & Hloop & _).
  exists r. split; [done|].
  assert (Str.rfind "/" r = None ∧ Path.suffix r = Path.suffix song) as [Hsep Hr].
  { specialize (Hloop _ (Nat.le_refl _)). apply loop_Some in Hloop.
    destruct Hloop as [[_ ->]|[_ (k & _ & -> & _)]].
    - split; [apply name_no_sep|done].
    - rewrite <- Hsame. apply numbered_suffix; [apply name_no_sep|by rewrite Hsame]. }
  split_and!; [done|done|]. unfold is_audio. by rewrite Hr.
Qed.

Lemma unique_filename_keeps_suffix_witness :
  Path.suffix "/music/jazz/song.mp3" ≠ ""
  ∧ ∃ r : string,
      unique_filename "/usb" (Path.name "/music/jazz/song.mp3") (World Ex.usb [] [])
        = Return r (World Ex.usb [] [])
      ∧ Path.suffix r = Path.suffix "/music/jazz/song.mp3".
Proof.
  assert (Path.suffix "/music/jazz/song.mp3" ≠ "") as Hsuffix by done.
  split; [exact Hsuffix|].
  destruct (unique_filename_keeps_suffix "/usb" "/music/jazz/song.mp3" (World Ex.usb [] []) Hsuffix)
    as (r & Hrun & _ & Hr & _).
  exists r. split; [exact Hrun|exact Hr].
Defined.

(** The dot at the end of a name is no extension (for the [pathlib] of
    Python 3.11, which the paths here follow), but it becomes the start of
    one when the name is numbered. *)
Example unique_filename_trailing_dot :
  Path.suffix "take." = ""
  ∧ unique_filename "/d" "take." (World [("/d/take.", File "x")] [] [])
    = Return "take._2" (World [("/d/take.", File "x")] [] [])
  ∧ Path.suffix "take._2" = "._2".
Proof. split_and!; reflexivity. Qed.
